(** * Tech events API: the event service, its schemas and its store

    A shallow embedding of [app/schemas/event.py], [app/services/event_service.py]
    and the part of [app/routers/events.py] that validates requests, together
    with a small model of the document collection the service talks to.

    - Python [str] is [string]; one [ascii] stands for one code point below 256.
    - Python [datetime] is a wall-clock reading in microseconds with an optional
      UTC offset; the driver stores it as whole milliseconds since the epoch.
    - A pydantic model is a record; the fields of [EventUpdate] carry their
      presence ([None]: not supplied, [Some None]: supplied as null).
    - The collection is the list of its documents in insertion order. The
      driver encodes what it sends: it refuses an integer outside 64 bits and
      a datetime whose UTC instant lies outside the years 1 to 9999. The
      server is taken to answer every call, and strings to be short enough
      for a document to stay within the size the server admits.
    - Service methods run in a state-and-error monad over the collection, the
      wall clock and the identifier generator. *)

From stdpp Require Import base decidable option list gmap strings sorting.
From Stdlib Require Import ZArith Ascii String.
Local Open Scope Z_scope.

(** ** Python strings *)

(** [str.isspace] on one code point below 256. *)
Definition isspace (c : ascii) : bool :=
  let n := N_of_ascii c in
  ((9 <=? n) && (n <=? 13) || (28 <=? n) && (n <=? 32) || (n =? 133) || (n =? 160))%N.

(** [str.lower] on one code point below 256. *)
Definition lower_char (c : ascii) : ascii :=
  let n := N_of_ascii c in
  if ((65 <=? n) && (n <=? 90) || (192 <=? n) && (n <=? 222) && negb (n =? 215))%N
  then ascii_of_N (n + 32) else c.

Fixpoint lower (s : string) : string :=
  match s with
  | EmptyString => EmptyString
  | String c r => String (lower_char c) (lower r)
  end.

Fixpoint lstrip (s : string) : string :=
  match s with
  | EmptyString => EmptyString
  | String c r => if isspace c then lstrip r else s
  end.

Fixpoint rstrip (s : string) : string :=
  match s with
  | EmptyString => EmptyString
  | String c r =>
      match rstrip r with
      | EmptyString => if isspace c then EmptyString else String c EmptyString
      | r' => String c r'
      end
  end.

(** [s.strip()] *)
Definition strip (s : string) : string := rstrip (lstrip s).

(** White space only. *)
Fixpoint blank (s : string) : bool :=
  match s with
  | EmptyString => true
  | String c r => isspace c && blank r
  end.

(** Truth value of a [str]: non-empty. *)
Definition truthy (s : string) : bool := negb (String.eqb s "").

(** [len(s)] *)
Definition len (s : string) : Z := Z.of_nat (String.length s).

(** [s.split(",")] *)
Fixpoint split_comma (s : string) : list string :=
  match s with
  | EmptyString => [EmptyString]
  | String c r =>
      if Ascii.eqb c "," then EmptyString :: split_comma r
      else match split_comma r with
           | [] => [String c EmptyString]
           | w :: ws => String c w :: ws
           end
  end.

(** ** Python datetimes *)

(** [wall]: the date-time fields as microseconds since 1970-01-01T00:00:00;
    [tzinfo]: [None] for a naive value, [Some off] for an aware one whose
    [utcoffset()] is [off] microseconds. *)
Record datetime := mk_datetime { wall : Z; tzinfo : option Z }.

#[global] Instance datetime_eq_dec : EqDecision datetime.
Proof. solve_decision. Defined.

Definition UTC : option Z := Some 0.

(** [v.replace(tzinfo=tz)] *)
Definition replace_tzinfo (v : datetime) (tz : option Z) : datetime :=
  {| wall := wall v; tzinfo := tz |}.

(** [a < b]: aware values compare by their UTC instants, naive ones by their
    fields, and mixing the two raises [TypeError] ([None]). *)
Definition datetime_lt (a b : datetime) : option bool :=
  match tzinfo a, tzinfo b with
  | Some oa, Some ob => Some (wall a - oa <? wall b - ob)
  | None, None => Some (wall a <? wall b)
  | _, _ => None
  end.

(** The value [datetime.now(UTC)] returns when the clock reads [t]. *)
Definition utc_now (t : Z) : datetime := {| wall := t; tzinfo := UTC |}.

(** The UTC instant of a value, a naive one being taken as UTC. *)
Definition utc_instant (v : datetime) : Z := wall v - default 0 (tzinfo v).

(** The driver's encoding of a datetime: whole milliseconds since the epoch,
    a naive value being taken as UTC. *)
Definition millis (v : datetime) : Z := utc_instant v `div` 1000.

(** What the driver hands back for a stored datetime: naive, in UTC. *)
Definition bson_datetime (v : datetime) : datetime :=
  {| wall := 1000 * millis v; tzinfo := None |}.

(** ** Field validators of [app/schemas/event.py] *)

(** A validator returns [None] when it raises. *)

(** [EventCreate.date_not_in_past], with the reading of [datetime.now(UTC)]
    passed in. *)
Definition date_not_in_past (now : datetime) (v : datetime) : option datetime :=
  let v := match tzinfo v with
           | None => replace_tzinfo v UTC
           | Some _ => v
           end in
  match datetime_lt v now with
  | Some true => None
  | Some false => Some v
  | None => None
  end.

(** [EventCreate.validate_tags]: [list(set(...))] enumerates the set in an
    order the language does not fix; [elements] is such an enumeration. *)
Definition validate_tags (v : list string) : list string :=
  let cleaned_tags :=
    (λ tag, lower (strip tag)) <$> filter (λ tag, truthy (strip tag) = true) v in
  elements (list_to_set cleaned_tags : gset string).

(** [Field(min_length=lo, max_length=hi)] on a [str]. *)
Definition str_field (lo : Z) (hi : option Z) (s : string) : option string :=
  if (lo <=? len s) && (match hi with Some h => len s <=? h | None => true end)
  then Some s else None.

(** [Field(gt=0)] on an [int]. *)
Definition gt_field (bound : Z) (n : Z) : option Z :=
  if bound <? n then Some n else None.

(** A field of a model with all fields optional: [None] when the request did
    not supply it, [Some None] when it supplied null. *)
Abbreviation field A := (option (option A)) (only parsing).

(** Validation of a field of type [T | None]: the rule applies to a value,
    null passes, and a field that is not supplied is not validated. *)
Definition optional {A B : Type} (rule : A → option B) (f : field A) : option (field B) :=
  match f with
  | None => Some None
  | Some None => Some (Some None)
  | Some (Some v) => (λ x, Some (Some x)) <$> rule v
  end.

(** The offending field, when its validation failed. *)
Definition loc {A : Type} (name : string) (r : option A) : list string :=
  match r with
  | Some _ => []
  | None => [name]
  end.

(** ** Collaborators

    What the service takes from outside this repository. An [ObjectId] is
    its twelve bytes read as a number. *)
Definition ObjectId : Type := N.

#[global] Instance ObjectId_eq_dec : EqDecision ObjectId := N.eq_dec.

Class Collaborators := mk_collaborators
  { (** [ObjectId(s)]: the identifier a string denotes, [None] when the
        constructor raises [InvalidId]. *)
    ObjectId_parse : string → option ObjectId;
    (** [str(oid)] *)
    ObjectId_str : ObjectId → string;
    (** [EmailStr]: the address as the validation library normalises it,
        [None] when it rejects it. *)
    validate_email : string → option string;
    (** The successive readings of the clock, in microseconds since the
        epoch, UTC; a reading is a datetime, within the years 1 to 9999. *)
    clock : nat → Z;
    (** The successive identifiers the driver generates. *)
    new_oid : nat → ObjectId }.

Module EventCreate.
Record t := mk
  { title : string;
    description : string;
    date : datetime;
    location : string;
    organizer : string;
    tags : list string;
    capacity : Z }.

(** Validation of a request body whose fields have the right types. A body
    without [tags] has [tags = []]. The result is the model, or the fields
    that failed. *)
Definition validate `{Collaborators} (now : datetime) (raw : t) : list string + t :=
    let v_title := str_field 1 (Some 200) (title raw) in
    let v_description := str_field 1 None (description raw) in
    let v_date := date_not_in_past now (date raw) in
    let v_location := str_field 1 (Some 200) (location raw) in
    let v_organizer := validate_email (organizer raw) in
    let v_tags := validate_tags (tags raw) in
    let v_capacity := gt_field 0 (capacity raw) in
    match v_title, v_description, v_date, v_location, v_organizer, v_capacity with
    | Some a, Some b, Some c, Some d, Some e, Some g => inr (mk a b c d e v_tags g)
    | _, _, _, _, _, _ =>
        inl (loc "title" v_title ++ loc "description" v_description ++
             loc "date" v_date ++ loc "location" v_location ++
             loc "organizer" v_organizer ++ loc "capacity" v_capacity)
    end.
End EventCreate.

Module EventUpdate.
Record t := mk
  { title : field string;
    description : field string;
    date : field datetime;
    location : field string;
    organizer : field string;
    tags : field (list string);
    capacity : field Z;
    is_active : field bool }.

(** Validation of a request body: only a field supplied with a value meets
    its rule. *)
Definition validate `{Collaborators} (now : datetime) (raw : t) : list string + t :=
    let v_title := optional (str_field 1 (Some 200)) (title raw) in
    let v_description := optional (str_field 1 None) (description raw) in
    let v_date := optional (date_not_in_past now) (date raw) in
    let v_location := optional (str_field 1 (Some 200)) (location raw) in
    let v_organizer := optional validate_email (organizer raw) in
    let v_tags := optional (λ v, Some (validate_tags v)) (tags raw) in
    let v_capacity := optional (gt_field 0) (capacity raw) in
    match v_title, v_description, v_date, v_location, v_organizer, v_tags, v_capacity with
    | Some a, Some b, Some c, Some d, Some e, Some f, Some g =>
        inr (mk a b c d e f g (is_active raw))
    | _, _, _, _, _, _, _ =>
        inl (loc "title" v_title ++ loc "description" v_description ++
             loc "date" v_date ++ loc "location" v_location ++
             loc "organizer" v_organizer ++ loc "tags" v_tags ++
             loc "capacity" v_capacity)
    end.
End EventUpdate.

(** ** Documents of the events collection *)

(** A document, with identifiers of type [I]: [ObjectId] in the collection,
    [string] once [event_helper] has run, [unit] before the driver has added
    one. A field holds [None] when it is null. *)
Record event_doc (I : Type) := mk_doc
  { _id : I;
    title : option string;
    description : option string;
    date : option datetime;
    location : option string;
    organizer : option string;
    tags : option (list string);
    capacity : option Z;
    is_active : option bool;
    created_at : datetime;
    updated_at : datetime }.

Arguments mk_doc {I}.
Arguments _id {I}.
Arguments title {I}.
Arguments description {I}.
Arguments date {I}.
Arguments location {I}.
Arguments organizer {I}.
Arguments tags {I}.
Arguments capacity {I}.
Arguments is_active {I}.
Arguments created_at {I}.
Arguments updated_at {I}.

#[global] Instance event_doc_eq_dec {I : Type} `{EqDecision I} : EqDecision (event_doc I).
Proof. solve_decision. Defined.

Definition with_id {I J : Type} (i : J) (d : event_doc I) : event_doc J :=
  mk_doc i (title d) (description d) (date d) (location d) (organizer d)
         (tags d) (capacity d) (is_active d) (created_at d) (updated_at d).

(** The document as the driver hands it back: datetimes stored in
    milliseconds, read as naive UTC values. *)
Definition stored {I : Type} (d : event_doc I) : event_doc I :=
  mk_doc (_id d) (title d) (description d) (bson_datetime <$> date d) (location d)
         (organizer d) (tags d) (capacity d) (is_active d)
         (bson_datetime (created_at d)) (bson_datetime (updated_at d)).

(** The document of a [$set]: the supplied fields of an update, and
    [updated_at] once the service has added it. *)
Record set_doc := mk_set
  { set_fields : EventUpdate.t;
    set_updated_at : option datetime }.

Definition unset_fields : EventUpdate.t :=
  EventUpdate.mk None None None None None None None None.

(** [not update_data]: the dictionary has no key. *)
Definition is_empty (u : set_doc) : bool :=
  match u with
  | mk_set (EventUpdate.mk None None None None None None None None) None => true
  | _ => false
  end.

Arguments is_empty : simpl never.

(** The effect of [{"$set": u}] on one document: the supplied values are
    encoded, the other fields stay as they are. *)
Definition apply_set (u : set_doc) (d : event_doc ObjectId) : event_doc ObjectId :=
  let f := set_fields u in
  mk_doc (_id d)
    (default (title d) (EventUpdate.title f))
    (default (description d) (EventUpdate.description f))
    (default (date d) (option_map (option_map bson_datetime) (EventUpdate.date f)))
    (default (location d) (EventUpdate.location f))
    (default (organizer d) (EventUpdate.organizer f))
    (default (tags d) (EventUpdate.tags f))
    (default (capacity d) (EventUpdate.capacity f))
    (default (is_active d) (EventUpdate.is_active f))
    (created_at d)
    (default (updated_at d) (option_map bson_datetime (set_updated_at u))).

(** ** Queries *)

(** One key of a filter document, for the keys the service uses. *)
Inductive cond :=
| q_id (o : ObjectId)                       (* {"_id": o} *)
| q_id_ne (o : ObjectId)                    (* {"_id": {"$ne": o}} *)
| q_title (t : option string)               (* {"title": t} *)
| q_date (d : option datetime)              (* {"date": d} *)
| q_is_active (b : bool)                    (* {"is_active": b} *)
| q_date_range (gte lte : option datetime)  (* {"date": {"$gte": .., "$lte": ..}} *)
| q_tags_in (l : list string).              (* {"tags": {"$in": l}} *)

#[global] Instance cond_eq_dec : EqDecision cond.
Proof. solve_decision. Defined.

Definition query : Type := list cond.

Definition holds (c : cond) (d : event_doc ObjectId) : bool :=
  match c with
  | q_id o => bool_decide (_id d = o)
  | q_id_ne o => bool_decide (_id d ≠ o)
  | q_title t => bool_decide (title d = t)
  | q_date v => bool_decide (millis <$> date d = millis <$> v)
  | q_is_active b => bool_decide (is_active d = Some b)
  | q_date_range gte lte =>
      match date d with
      | Some x =>
          match gte, lte with
          | None, None => false
          | _, _ =>
              (match gte with Some g => millis g <=? millis x | None => true end) &&
              (match lte with Some l => millis x <=? millis l | None => true end)
          end
      | None => false
      end
  | q_tags_in l =>
      match tags d with
      | Some ts => existsb (λ t, bool_decide (t ∈ ts)) l
      | None => false
      end
  end.

Definition matches (q : query) (d : event_doc ObjectId) : bool := forallb (λ c, holds c d) q.

(** ** The driver's encoder

    Every filter and every document goes through the encoder before it
    leaves the process, and the encoder raises [OverflowError] on an integer
    that does not fit 64 bits and on a datetime it cannot turn into UTC. *)

(** An [int] the encoder accepts. *)
Definition int64 (n : Z) : bool :=
  (-9223372036854775808 <=? n) && (n <=? 9223372036854775807).

(** [datetime.min] and [datetime.max] as instants: 0001-01-01T00:00:00 and
    9999-12-31T23:59:59.999999. *)
Definition datetime_min : Z := -62135596800000000.
Definition datetime_max : Z := 253402300799999999.

(** A datetime the encoder accepts: it subtracts the offset of an aware
    value, and the result has to be a datetime, between [datetime.min] and
    [datetime.max]. *)
Definition encodable (v : datetime) : bool :=
  (datetime_min <=? utc_instant v) && (utc_instant v <=? datetime_max).

Arguments int64 : simpl never.
Arguments encodable : simpl never.

Definition encodable_cond (c : cond) : bool :=
  match c with
  | q_date (Some v) => encodable v
  | q_date_range gte lte => from_option encodable true gte && from_option encodable true lte
  | _ => true
  end.

Definition encodable_query (q : query) : bool := forallb encodable_cond q.

(** The values of a document that come from a request: its [date] and its
    [capacity]. [created_at] and [updated_at] hold readings of
    [datetime.now(UTC)], which are datetimes with a zero offset and so always
    encode. *)
Definition encodable_doc {I : Type} (d : event_doc I) : bool :=
  from_option encodable true (date d) && from_option int64 true (capacity d).

Definition encodable_set (u : set_doc) : bool :=
  match EventUpdate.date (set_fields u) with
  | Some (Some v) => encodable v
  | _ => true
  end &&
  match EventUpdate.capacity (set_fields u) with
  | Some (Some n) => int64 n
  | _ => true
  end.

(** ** The world: collection, clock and identifier generator *)

Inductive call :=
| FindOne (q : query)
| InsertOne (d : event_doc unit)
| UpdateOne (q : query) (u : set_doc)
| CountDocuments (q : query)
| Find (q : query) (skip limit : Z).

Record world := mk_world
  { events : list (event_doc ObjectId);  (* the collection, in insertion order *)
    ticks : nat;                         (* readings of the clock so far *)
    minted : nat;                        (* identifiers generated so far *)
    trace : list call }.                 (* calls the collection has received *)

Inductive detail :=
| InvalidIdDetail                       (* "El ID proporcionado no es válido" *)
| NotFoundDetail (event_id : string)    (* "No se encontró un evento con el ID: ..." *)
| DuplicateDetail (title : string)      (* "Ya existe un evento con el título ..." *)
| OtherDuplicateDetail (title : option string). (* "Ya existe otro evento con el título ..." *)

Inductive error :=
| HTTPException (status_code : Z) (d : detail)
| RequestValidationError (fields : list string)
| InvalidId
| DuplicateKeyError
| ValueError
| OverflowError.

Definition HTTP_400_BAD_REQUEST : Z := 400.
Definition HTTP_404_NOT_FOUND : Z := 404.

(** A computation: it reads and changes the world and returns or raises. *)
Definition M (A : Type) : Type := world → (error + A) * world.

#[global] Instance M_ret : MRet M := λ A x w, (inr x, w).
#[global] Instance M_bind : MBind M := λ A B f m w,
  match m w with
  | (inr x, w') => f x w'
  | (inl e, w') => (inl e, w')
  end.

Definition raise {A : Type} (e : error) : M A := λ w, (inl e, w).

Definition record (c : call) : M unit :=
  λ w, (inr (), mk_world (events w) (ticks w) (minted w) (trace w ++ [c])).

Definition collection : M (list (event_doc ObjectId)) := λ w, (inr (events w), w).

Definition put (l : list (event_doc ObjectId)) : M unit :=
  λ w, (inr (), mk_world l (ticks w) (minted w) (trace w)).

(** [datetime.now(UTC)] *)
Definition datetime_now `{Collaborators} : M datetime :=
  λ w, (inr (utc_now (clock (ticks w))), mk_world (events w) (S (ticks w)) (minted w) (trace w)).

(** The identifier the driver gives a document that has none. *)
Definition generate_oid `{Collaborators} : M ObjectId :=
  λ w, (inr (new_oid (minted w)), mk_world (events w) (ticks w) (S (minted w)) (trace w)).

(** ** Operations of the collection

    Each operation is called, encodes its command, and only then reaches the
    collection. *)

(** The encoding of a command: [OverflowError] when the encoder refuses. *)
Definition encode (accepted : bool) : M unit :=
  if accepted then mret () else raise OverflowError.

Definition find_one (q : query) : M (option (event_doc ObjectId)) :=
  _ ← record (FindOne q);
  _ ← encode (encodable_query q);
  l ← collection;
  mret (List.find (matches q) l).

(** [insert_one]: the driver adds [_id] and encodes the document; the
    collection refuses an identifier it already holds. Returns
    [inserted_id]. *)
Definition insert_one `{Collaborators} (d : event_doc unit) : M ObjectId :=
  _ ← record (InsertOne d);
  oid ← generate_oid;
  _ ← encode (encodable_doc d);
  l ← collection;
  if bool_decide (oid ∈ _id <$> l) then raise DuplicateKeyError
  else _ ← put (l ++ [stored (with_id oid d)]); mret oid.

Record UpdateResult := mk_result { matched_count : Z; modified_count : Z }.

(** The first document the filter matches is rewritten; the second component
    tells whether that changed it. *)
Fixpoint update_first (q : query) (u : set_doc) (l : list (event_doc ObjectId))
  : option (list (event_doc ObjectId) * bool) :=
  match l with
  | [] => None
  | d :: r =>
      if matches q d then Some (apply_set u d :: r, bool_decide (apply_set u d ≠ d))
      else (λ p, (d :: p.1, p.2)) <$> update_first q u r
  end.

(** [update_one(q, {"$set": u})] *)
Definition update_one (q : query) (u : set_doc) : M UpdateResult :=
  _ ← record (UpdateOne q u);
  _ ← encode (encodable_query q && encodable_set u);
  l ← collection;
  match update_first q u l with
  | None => mret (mk_result 0 0)
  | Some (l', modified) =>
      _ ← put l'; mret (mk_result 1 (if modified then 1 else 0))
  end.

Definition count_documents (q : query) : M Z :=
  _ ← record (CountDocuments q);
  _ ← encode (encodable_query q);
  l ← collection;
  mret (Z.of_nat (List.length (List.filter (matches q) l))).

(** Ascending order on the [date] key: null sorts before every date. *)
Definition date_le (a b : event_doc ObjectId) : Prop :=
  match millis <$> date a, millis <$> date b with
  | None, _ => True
  | Some _, None => False
  | Some x, Some y => x ≤ y
  end.

#[global] Instance date_le_dec : RelDecision date_le.
Proof. intros a b. unfold date_le. destruct (millis <$> date a), (millis <$> date b); apply _. Defined.

(** [find(q).sort("date", 1).skip(skip).limit(limit)] read with
    [to_list(length=limit)]: the driver refuses a negative [skip] and a
    negative [length] before it queries, the command carries the filter,
    [skip] and [limit], and [to_list] returns at most [length] documents. *)
Definition find_sorted (q : query) (skip limit : Z) : M (list (event_doc ObjectId)) :=
  if skip <? 0 then raise ValueError
  else if limit <? 0 then raise ValueError
  else
    _ ← record (Find q skip limit);
    _ ← encode (encodable_query q && int64 skip && int64 limit);
    l ← collection;
    mret (take (Z.to_nat limit)
            (drop (Z.to_nat skip) (merge_sort date_le (List.filter (matches q) l)))).

(** ** The service: [app/services/event_service.py] *)

(** [event_helper]: the identifier becomes its string. *)
Definition event_helper `{Collaborators} (event : event_doc ObjectId) : event_doc string :=
  with_id (ObjectId_str (_id event)) event.

(** [ObjectId.is_valid(s)]: whether the constructor accepts [s]. *)
Definition is_valid `{Collaborators} (s : string) : bool :=
  bool_decide (is_Some (ObjectId_parse s)).

(** [ObjectId(s)] *)
Definition ObjectId_new `{Collaborators} (s : string) : M ObjectId :=
  match ObjectId_parse s with
  | Some o => mret o
  | None => raise InvalidId
  end.

Definition create_event `{Collaborators} (event : EventCreate.t)
  : M (option (event_doc string)) :=
  existing ← find_one [q_title (Some (EventCreate.title event));
                       q_date (Some (EventCreate.date event));
                       q_is_active true];
  match existing with
  | Some _ =>
      raise (HTTPException HTTP_400_BAD_REQUEST (DuplicateDetail (EventCreate.title event)))
  | None =>
      created ← datetime_now;
      updated ← datetime_now;
      let event_dict :=
        mk_doc () (Some (EventCreate.title event)) (Some (EventCreate.description event))
          (Some (EventCreate.date event)) (Some (EventCreate.location event))
          (Some (EventCreate.organizer event)) (Some (EventCreate.tags event))
          (Some (EventCreate.capacity event)) (Some true) created updated in
      inserted_id ← insert_one event_dict;
      created_event ← find_one [q_id inserted_id];
      mret (event_helper <$> created_event)
  end.

(** The filter [get_events] builds. A datetime is always true, a list is true
    when it is not empty. *)
Definition events_query (date_from date_to : option datetime) (tags : option (list string))
  : query :=
  [q_is_active true] ++
  (match date_from, date_to with
   | None, None => []
   | _, _ => [q_date_range date_from date_to]
   end) ++
  (match tags with
   | Some (t :: ts) => [q_tags_in (lower <$> t :: ts)]
   | _ => []
   end).

Definition get_events `{Collaborators} (page limit : Z)
    (date_from date_to : option datetime) (tags : option (list string))
  : M (list (event_doc string) * Z) :=
  let query := events_query date_from date_to tags in
  total ← count_documents query;
  let skip := (page - 1) * limit in
  events ← find_sorted query skip limit;
  mret (event_helper <$> events, total).

Definition get_event_by_id `{Collaborators} (event_id : string) : M (event_doc string) :=
  if negb (is_valid event_id)
  then raise (HTTPException HTTP_400_BAD_REQUEST InvalidIdDetail)
  else
    oid ← ObjectId_new event_id;
    event ← find_one [q_id oid; q_is_active true];
    match event with
    | None => raise (HTTPException HTTP_404_NOT_FOUND (NotFoundDetail event_id))
    | Some event => mret (event_helper event)
    end.

(** [model_dump(exclude_unset=True)] *)
Definition model_dump_exclude_unset (event_update : EventUpdate.t) : set_doc :=
  mk_set event_update None.

(** [update_data["updated_at"] = now] *)
Definition set_now (update_data : set_doc) (now : datetime) : set_doc :=
  mk_set (set_fields update_data) (Some now).

Definition update_event `{Collaborators} (event_id : string) (event_update : EventUpdate.t)
  : M (option (event_doc string)) :=
  if negb (is_valid event_id)
  then raise (HTTPException HTTP_400_BAD_REQUEST InvalidIdDetail)
  else
    oid ← ObjectId_new event_id;
    existing_event ← find_one [q_id oid; q_is_active true];
    match existing_event with
    | None => raise (HTTPException HTTP_404_NOT_FOUND (NotFoundDetail event_id))
    | Some existing_event =>
        let update_data := model_dump_exclude_unset event_update in
        if is_empty update_data then mret (Some (event_helper existing_event))
        else
          _ ← (if bool_decide (is_Some (EventUpdate.title (set_fields update_data)))
                  || bool_decide (is_Some (EventUpdate.date (set_fields update_data)))
               then
                 let title' := default (title existing_event)
                                 (EventUpdate.title (set_fields update_data)) in
                 let date' := default (date existing_event)
                                (EventUpdate.date (set_fields update_data)) in
                 duplicate ← find_one [q_title title'; q_date date';
                                       q_is_active true; q_id_ne oid];
                 match duplicate with
                 | Some _ =>
                     raise (HTTPException HTTP_400_BAD_REQUEST (OtherDuplicateDetail title'))
                 | None => mret ()
                 end
               else mret ());
          now ← datetime_now;
          let update_data := set_now update_data now in
          _ ← update_one [q_id oid] update_data;
          updated_event ← find_one [q_id oid];
          mret (event_helper <$> updated_event)
    end.

Definition delete_event `{Collaborators} (event_id : string) : M bool :=
  if negb (is_valid event_id)
  then raise (HTTPException HTTP_400_BAD_REQUEST InvalidIdDetail)
  else
    oid ← ObjectId_new event_id;
    now ← datetime_now;
    result ← update_one [q_id oid; q_is_active true]
               (mk_set (EventUpdate.mk None None None None None None None (Some (Some false)))
                       (Some now));
    if modified_count result =? 0
    then raise (HTTPException HTTP_404_NOT_FOUND (NotFoundDetail event_id))
    else mret true.

(** ** Request validation: [app/routers/events.py] *)

Module router.

(** [POST ""]: the body is validated, the [date] validator reading the
    clock, before the service runs. *)
Definition create_event `{Collaborators} (body : EventCreate.t)
  : M (option (event_doc string)) :=
  now ← datetime_now;
  match EventCreate.validate now body with
  | inl fields => raise (RequestValidationError fields)
  | inr event => create_event event
  end.

(** [PUT "/{event_id}"]: the [date] validator reads the clock when the body
    supplies a date. *)
Definition update_event `{Collaborators} (event_id : string) (body : EventUpdate.t)
  : M (option (event_doc string)) :=
  now ← match EventUpdate.date body with
        | Some (Some _) => datetime_now
        | _ => mret (utc_now 0)
        end;
  match EventUpdate.validate now body with
  | inl fields => raise (RequestValidationError fields)
  | inr event_update => update_event event_id event_update
  end.

(** [[tag.strip() for tag in tags.split(",")] if tags else None] *)
Definition tags_list (tags : option string) : option (list string) :=
  match tags with
  | Some s => if truthy s then Some (strip <$> split_comma s) else None
  | None => None
  end.

(** [GET ""]: [page >= 1] and [1 <= limit <= 100] are checked before the
    service runs, and the error names every parameter that is out of
    bounds. *)
Definition get_events `{Collaborators} (page limit : Z)
    (date_from date_to : option datetime) (tags : option string)
  : M (list (event_doc string) * Z) :=
  let v_page := if 1 <=? page then Some page else None in
  let v_limit := if (1 <=? limit) && (limit <=? 100) then Some limit else None in
  match v_page, v_limit with
  | Some page, Some limit => get_events page limit date_from date_to (tags_list tags)
  | _, _ => raise (RequestValidationError (loc "page" v_page ++ loc "limit" v_limit))
  end.

End router.

(** Updates that supply one field. *)
Definition only_capacity (n : Z) : EventUpdate.t :=
  EventUpdate.mk None None None None None None (Some (Some n)) None.


Definition only_is_active (b : bool) : EventUpdate.t :=
  EventUpdate.mk None None None None None None None (Some (Some b)).

(** ** Vocabulary of the statements *)


Definition InvalidIdentifier (e : error) : Prop :=
  e = HTTPException 400 InvalidIdDetail.

Definition NotFound (e : error) : Prop :=
  match e with
  | HTTPException 404 (NotFoundDetail _) => True
  | _ => False
  end.

Definition ValidationError (e : error) : Prop :=
  match e with
  | RequestValidationError _ => True
  | _ => False
  end.

(** The collection holds no identifier twice. *)
Definition unique_ids (w : world) : Prop := NoDup (_id <$> events w).

(** [d] is the active event with identifier [oid]. *)
Definition active_with_id (oid : ObjectId) (d : event_doc ObjectId) : Prop :=
  _id d = oid ∧ is_active d = Some true.

(** [d] is an active event with this title and this date. *)
Definition active_with_pair (t : option string) (v : option datetime)
    (d : event_doc ObjectId) : Prop :=
  is_active d = Some true ∧ title d = t ∧ millis <$> date d = millis <$> v.

(** The world with one more call in its trace. *)
Definition logged (c : call) (w : world) : world :=
  mk_world (events w) (ticks w) (minted w) (trace w ++ [c]).

(** The calls that write to the collection. *)
Definition is_write (c : call) : bool :=
  match c with
  | InsertOne _ | UpdateOne _ _ => true
  | _ => false
  end.


(** The collection after the document with identifier [oid] received
    [{"$set": u}]. *)
Definition rewritten (oid : ObjectId) (u : set_doc) (l : list (event_doc ObjectId))
  : list (event_doc ObjectId) :=
  (λ d, if bool_decide (_id d = oid) then apply_set u d else d) <$> l.

(** The documents a listing selects: active, within the date bounds that
    are given, and sharing a tag with the given ones, compared lowercased. *)
Definition selected (date_from date_to : option datetime) (tag_list : option (list string))
    (d : event_doc ObjectId) : Prop :=
  is_active d = Some true ∧
  (∀ g, date_from = Some g → ∃ x, date d = Some x ∧ millis g ≤ millis x) ∧
  (∀ l, date_to = Some l → ∃ x, date d = Some x ∧ millis x ≤ millis l) ∧
  (∀ ts, tag_list = Some ts → ts ≠ [] →
         ∃ t own, t ∈ ts ∧ tags d = Some own ∧ lower t ∈ own).

(** The rules of the design for the fields of an update, read on the
    request: each applies to a field supplied with a value. *)
Record rules_hold `{Collaborators} (now : Z) (raw : EventUpdate.t) : Prop := mk_rules
  { rule_title : ∀ s, EventUpdate.title raw = Some (Some s) → 1 ≤ len s ≤ 200;
    rule_description : ∀ s, EventUpdate.description raw = Some (Some s) → 1 ≤ len s;
    rule_date : ∀ v, EventUpdate.date raw = Some (Some v) → ¬ utc_instant v < now;
    rule_location : ∀ s, EventUpdate.location raw = Some (Some s) → 1 ≤ len s ≤ 200;
    rule_organizer : ∀ s, EventUpdate.organizer raw = Some (Some s) → is_Some (validate_email s);
    rule_capacity : ∀ n, EventUpdate.capacity raw = Some (Some n) → 0 < n }.

(** The value a validated field carries into the update. *)
Definition normal {A B : Type} (f : A → B) (x : field A) : field B :=
  option_map (option_map f) x.

(** A datetime made aware: a naive value is taken as UTC. *)
Definition as_utc (v : datetime) : datetime :=
  match tzinfo v with
  | None => replace_tzinfo v UTC
  | Some _ => v
  end.

(** The model a request that passes validation yields: dates made aware,
    addresses normalised, tags cleaned, the other fields as supplied. *)
Definition validated `{Collaborators} (raw : EventUpdate.t) : EventUpdate.t :=
  EventUpdate.mk (EventUpdate.title raw) (EventUpdate.description raw)
    (normal as_utc (EventUpdate.date raw)) (EventUpdate.location raw)
    (normal (λ s, default s (validate_email s)) (EventUpdate.organizer raw))
    (normal validate_tags (EventUpdate.tags raw))
    (EventUpdate.capacity raw) (EventUpdate.is_active raw).


(** The encoder accepts the values of a candidate, and of an update: the
    date, when there is one, and the capacity. *)
Definition encodable_create (event : EventCreate.t) : bool :=
  encodable (EventCreate.date event) && int64 (EventCreate.capacity event).

Definition encodable_update (u : EventUpdate.t) : bool :=
  encodable_set (mk_set u None).

(** The encoder accepts the command of a listing: the date bounds that are
    given, the number of documents to skip and the limit. *)
Definition encodable_listing (page limit : Z) (date_from date_to : option datetime) : bool :=
  from_option encodable true date_from && from_option encodable true date_to &&
  int64 ((page - 1) * limit) && int64 limit.

(** Every document of the collection went through the encoder. *)
Definition storable (w : world) : Prop :=
  ∀ d, d ∈ events w → encodable_doc d = true.


(** The worlds the service brings about from an empty collection when its
    methods run one after another, each call returning before the next one
    starts. *)
Inductive serial `{Collaborators} : world → Prop :=
| serial_empty (n m : nat) (tr : list call) : serial (mk_world [] n m tr)
| serial_create (w : world) (event : EventCreate.t) :
    serial w → serial (create_event event w).2
| serial_get_events (w : world) (page limit : Z) (date_from date_to : option datetime)
    (tag_list : option (list string)) :
    serial w → serial (get_events page limit date_from date_to tag_list w).2
| serial_get (w : world) (event_id : string) :
    serial w → serial (get_event_by_id event_id w).2
| serial_update (w : world) (event_id : string) (event_update : EventUpdate.t) :
    serial w → serial (update_event event_id event_update w).2
| serial_delete (w : world) (event_id : string) :
    serial w → serial (delete_event event_id w).2.



(** ** A concrete setting

    Collaborators and data on which the statements below are run: identifiers
    written as 24 hexadecimal digits, addresses accepted when they hold an
    [@], a clock that starts in 2027 and advances one second per reading. *)

Module Sample.

Definition hex_digit (c : ascii) : option N :=
  let n := N_of_ascii c in
  if ((48 <=? n) && (n <=? 57))%N then Some (n - 48)%N
  else if ((97 <=? n) && (n <=? 102))%N then Some (n - 87)%N
  else if ((65 <=? n) && (n <=? 70))%N then Some (n - 55)%N
  else None.

Fixpoint hex_value (acc : N) (s : string) : option N :=
  match s with
  | EmptyString => Some acc
  | String c r =>
      match hex_digit c with
      | Some v => hex_value (16 * acc + v)%N r
      | None => None
      end
  end.

Definition parse (s : string) : option ObjectId :=
  if Nat.eqb (String.length s) 24 then hex_value 0%N s else None.

Definition hex_char (v : N) : ascii :=
  if (v <? 10)%N then ascii_of_N (48 + v) else ascii_of_N (87 + v).

Fixpoint hex_string (digits : nat) (n : N) (acc : string) : string :=
  match digits with
  | O => acc
  | S k => hex_string k (n / 16)%N (String (hex_char (n mod 16)%N) acc)
  end.

Definition has_at (s : string) : bool :=
  existsb (Ascii.eqb "@") (list_ascii_of_string s).

#[global] Instance collaborators : Collaborators :=
  {| ObjectId_parse := parse;
     ObjectId_str := λ o, hex_string 24 o EmptyString;
     validate_email := λ s, if has_at s then Some s else None;
     clock := λ n, 1800000000000000 + 1000000 * Z.of_nat n;
     new_oid := λ n, (24912482966938930280208240657 + N.of_nat n)%N |}.

(** 2027-06-01T09:00:00+00:00 *)
Definition june : datetime := mk_datetime 1811926800000000 UTC.

(** 2020-01-01T10:00:00, naive. *)
Definition past : datetime := mk_datetime 1577872800000000 None.

Definition conference : EventCreate.t :=
  EventCreate.mk "Test Conference 2025" "A test conference for developers" june
    "Test City" "test@conference.com" ["test"; "python"] 100.

Definition meetup : EventCreate.t :=
  EventCreate.mk "Rust Meetup" "Monthly meetup" june
    "Test City" "rust@meetup.org" ["rust"] 40.

Definition empty_world : world := mk_world [] 0 0 [].

(** The world after [conference] and then [meetup] were created. *)
Definition two_events : world :=
  Eval vm_compute in (create_event meetup (create_event conference empty_world).2).2.

Definition conference_oid : ObjectId := 24912482966938930280208240657%N.

(** A request body with a date in the past. *)
Definition stale : EventCreate.t :=
  EventCreate.mk "Old Conference" "Held long ago" past "Test City" "test@conference.com" [] 100.


(** 9999-12-31T23:59:59-05:00: a datetime whose UTC instant is in the year
    10000. *)
Definition year_end : datetime := mk_datetime 253402300799000000 (Some (-18000000000)).



Definition conference_id : string := "507f1f77bcf86cd799439011".
Definition meetup_id : string := "507f1f77bcf86cd799439012".
Definition absent_id : string := "507f1f77bcf86cd7994390ff".

End Sample.

(** Unfolding of the monad in a service method applied to a world. *)
Ltac run :=
  unfold get_event_by_id, update_event, delete_event, create_event, get_events,
    ObjectId_new, raise;
  unfold mbind, M_bind, mret, M_ret; simpl.

(** ** More vocabulary *)

(** No two active events of the collection have the same title and the same
    date, dates being compared as stored. *)
Definition unique_pairs (w : world) : Prop :=
  ∀ x y, x ∈ events w → y ∈ events w →
         is_active x = Some true → is_active y = Some true →
         title x = title y → millis <$> date x = millis <$> date y →
         _id x = _id y.

(** The candidate as a stored document. *)
Definition created_doc (oid : ObjectId) (event : EventCreate.t) (created updated : datetime)
  : event_doc ObjectId :=
  mk_doc oid
    (Some (EventCreate.title event)) (Some (EventCreate.description event))
    (Some (bson_datetime (EventCreate.date event))) (Some (EventCreate.location event))
    (Some (EventCreate.organizer event)) (Some (EventCreate.tags event))
    (Some (EventCreate.capacity event)) (Some true)
    (bson_datetime created) (bson_datetime updated).

(** The rule a creation request breaks at the field [name], read on the
    constraints of [EventCreate]; [tags] has none. *)
Definition broken `{Collaborators} (now : Z) (raw : EventCreate.t) (name : string) : Prop :=
  (name = "title" ∧ ¬ 1 ≤ len (EventCreate.title raw) ≤ 200) ∨
  (name = "description" ∧ ¬ 1 ≤ len (EventCreate.description raw)) ∨
  (name = "date" ∧ utc_instant (EventCreate.date raw) < now) ∨
  (name = "location" ∧ ¬ 1 ≤ len (EventCreate.location raw) ≤ 200) ∨
  (name = "organizer" ∧ validate_email (EventCreate.organizer raw) = None) ∨
  (name = "capacity" ∧ ¬ 0 < EventCreate.capacity raw).

(** ** Responses: [EventResponse], [EventListResponse] and the handlers *)

Module EventResponse.
Record t := mk
  { id : string;
    title : string;
    description : string;
    date : datetime;
    location : string;
    organizer : string;
    tags : list string;
    capacity : Z;
    is_active : bool;
    created_at : datetime;
    updated_at : datetime }.

(** Validation of a dictionary against the model: no field of the model
    admits null. [None] when validation fails. *)
Definition validate (event : event_doc string) : option t :=
  match event with
  | mk_doc i (Some a) (Some b) (Some c) (Some d) (Some e) (Some f) (Some g) (Some h) ca ua =>
      Some (mk i a b c d e f g h ca ua)
  | _ => None
  end.
End EventResponse.

Arguments EventResponse.validate : simpl never.

Module EventListResponse.
Record t := mk
  { total : Z;
    page : Z;
    limit : Z;
    events : list EventResponse.t }.

(** [EventListResponse(total=.., page=.., limit=.., events=..)]: every entry
    of [events] is validated as an [EventResponse]. *)
Definition validate (total page limit : Z) (events : list (event_doc string)) : option t :=
  mk total page limit <$> mapM EventResponse.validate events.
End EventListResponse.

(** What an endpoint can raise besides what the service raises: the returned
    value failing its response model, and a model failing to build. *)
Inductive exception :=
| Raised (e : error)
| ResponseValidationError
| PydanticValidationError.

Inductive content :=
| EventContent (event : EventResponse.t)
| ListContent (listing : EventListResponse.t)
| DetailContent (d : detail)
| ErrorsContent (fields : list string)
| InternalErrorContent
| NoContent.

Inductive JSONResponse := mk_response (status_code : Z) (body : content).

Definition status (r : JSONResponse) : Z :=
  match r with
  | mk_response s _ => s
  end.

(** [global_exception_handler] of [app/main.py] *)
Definition global_exception_handler (exc : exception) : JSONResponse :=
  mk_response 500 InternalErrorContent.

(** The response to an exception: an [HTTPException] gives its status and
    detail, a request that fails validation gives 422, and everything else
    goes to the handler the application registers for [Exception]. *)
Definition exception_response (exc : exception) : JSONResponse :=
  match exc with
  | Raised (HTTPException s d) => mk_response s (DetailContent d)
  | Raised (RequestValidationError fields) => mk_response 422 (ErrorsContent fields)
  | _ => global_exception_handler exc
  end.

(** [response_model=EventResponse] on what an endpoint returns. *)
Definition event_response (status_code : Z) (returned : option (event_doc string))
  : exception + JSONResponse :=
  match returned with
  | Some event =>
      match EventResponse.validate event with
      | Some e => inr (mk_response status_code (EventContent e))
      | None => inl ResponseValidationError
      end
  | None => inl ResponseValidationError
  end.

(** An endpoint: the request handler runs, and what it returns or raises
    becomes the response. *)
Definition serve {A : Type} (handler : M A) (respond : A → exception + JSONResponse)
  : world → JSONResponse * world :=
  λ w, match handler w with
       | (inl e, w') => (exception_response (Raised e), w')
       | (inr x, w') =>
           (match respond x with
            | inl exc => exception_response exc
            | inr r => r
            end, w')
       end.

Module endpoint.

(** [POST ""], [status_code=201] *)
Definition create_event `{Collaborators} (event : EventCreate.t) : world → JSONResponse * world :=
  serve (router.create_event event) (event_response 201).

(** [GET ""]: [page] defaults to 1 and [limit] to 10. *)
Definition get_events `{Collaborators} (page limit : option Z)
    (date_from date_to : option datetime) (tags : option string)
  : world → JSONResponse * world :=
  let page := default 1 page in
  let limit := default 10 limit in
  serve (router.get_events page limit date_from date_to tags)
    (λ r, match EventListResponse.validate r.2 page limit r.1 with
          | Some listing => inr (mk_response 200 (ListContent listing))
          | None => inl PydanticValidationError
          end).

(** [GET "/{event_id}"] *)
Definition get_event `{Collaborators} (event_id : string) : world → JSONResponse * world :=
  serve (get_event_by_id event_id) (λ event, event_response 200 (Some event)).

(** [PUT "/{event_id}"] *)
Definition update_event `{Collaborators} (event_id : string) (event_update : EventUpdate.t)
  : world → JSONResponse * world :=
  serve (router.update_event event_id event_update) (event_response 200).

(** [DELETE "/{event_id}"], [status_code=204] *)
Definition delete_event `{Collaborators} (event_id : string) : world → JSONResponse * world :=
  serve (delete_event event_id) (λ _, inr (mk_response 204 NoContent)).

End endpoint.

(** A document without a null field. *)
Definition complete (d : event_doc ObjectId) : Prop :=
  is_Some (title d) ∧ is_Some (description d) ∧ is_Some (date d) ∧ is_Some (location d) ∧
  is_Some (organizer d) ∧ is_Some (tags d) ∧ is_Some (capacity d) ∧ is_Some (is_active d).

(** An update that supplies null for some field. *)
Definition supplies_null (u : EventUpdate.t) : Prop :=
  EventUpdate.title u = Some None ∨ EventUpdate.description u = Some None ∨
  EventUpdate.date u = Some None ∨ EventUpdate.location u = Some None ∨
  EventUpdate.organizer u = Some None ∨ EventUpdate.tags u = Some None ∨
  EventUpdate.capacity u = Some None ∨ EventUpdate.is_active u = Some None.

(** The model a creation request that passes validation yields. *)
Definition validated_create `{Collaborators} (raw : EventCreate.t) : EventCreate.t :=
  EventCreate.mk (EventCreate.title raw) (EventCreate.description raw)
    (as_utc (EventCreate.date raw)) (EventCreate.location raw)
    (default (EventCreate.organizer raw) (validate_email (EventCreate.organizer raw)))
    (validate_tags (EventCreate.tags raw)) (EventCreate.capacity raw).

(** The world after one more reading of the clock. *)
Definition ticked (w : world) : world :=
  mk_world (events w) (S (ticks w)) (minted w) (trace w).

(** * Properties *)

(** ** Strings *)

Lemma isspace_lower_char c : isspace (lower_char c) = isspace c.
Proof. destruct c as [[] [] [] [] [] [] [] []]; reflexivity. Qed.

Lemma lower_char_idem c : lower_char (lower_char c) = lower_char c.
Proof. destruct c as [[] [] [] [] [] [] [] []]; reflexivity. Qed.

Lemma lower_idem s : lower (lower s) = lower s.
Proof. induction s as [|c r IH]; simpl; [done|]. by rewrite lower_char_idem, IH. Qed.

Lemma lstrip_lower s : lstrip (lower s) = lower (lstrip s).
Proof.
  induction s as [|c r IH]; simpl; [done|].
  rewrite isspace_lower_char. by destruct (isspace c).
Qed.

Lemma rstrip_lower s : rstrip (lower s) = lower (rstrip s).
Proof.
  induction s as [|c r IH]; simpl; [done|].
  rewrite IH, isspace_lower_char.
  destruct (rstrip r); simpl; [by destruct (isspace c)|done].
Qed.

Lemma strip_lower s : strip (lower s) = lower (strip s).
Proof. unfold strip. by rewrite lstrip_lower, rstrip_lower. Qed.

Lemma rstrip_idem s : rstrip (rstrip s) = rstrip s.
Proof.
  induction s as [|c r IH]; simpl; [done|].
  destruct (rstrip r) as [|c' r'] eqn:E.
  - destruct (isspace c) eqn:Ec; simpl; [done|]. by rewrite Ec.
  - simpl in *. by rewrite IH.
Qed.

(** A string is trimmed when neither end is white space. *)
Lemma lstrip_head s : match lstrip s with String c _ => isspace c = false | EmptyString => True end.
Proof. induction s as [|c r IH]; simpl; [done|]. destruct (isspace c) eqn:E; [done|]. simpl. done. Qed.

Lemma lstrip_rstrip_lstrip s : lstrip (rstrip (lstrip s)) = rstrip (lstrip s).
Proof.
  pose proof (lstrip_head s) as Hh. destruct (lstrip s) as [|c r]; [done|].
  simpl in *. destruct (rstrip r); rewrite ?Hh; simpl; by rewrite ?Hh.
Qed.

Lemma strip_idem s : strip (strip s) = strip s.
Proof. unfold strip. by rewrite lstrip_rstrip_lstrip, rstrip_idem. Qed.

(** [strip] removes a blank prefix and a blank suffix, and what is left
    neither starts nor ends with white space. *)
Lemma append_cons (c : ascii) (a b : string) : String c a +:+ b = String c (a +:+ b).
Proof. reflexivity. Qed.

Lemma lstrip_decompose s : ∃ pre, s = pre +:+ lstrip s ∧ blank pre = true.
Proof.
  induction s as [|c r (pre & Hr & Hb)]; [by exists ""|]. simpl.
  destruct (isspace c) eqn:E.
  - exists (String c pre). simpl. rewrite E, Hb, append_cons. by rewrite <- Hr.
  - by exists "".
Qed.

Lemma rstrip_decompose s : ∃ post, s = rstrip s +:+ post ∧ blank post = true.
Proof.
  induction s as [|c r (post & Hr & Hb)]; [by exists ""|]. simpl.
  destruct (rstrip r) as [|c' r'] eqn:Er.
  - assert (r = post) as -> by exact Hr. destruct (isspace c) eqn:E.
    + exists (String c post). simpl. by rewrite E, Hb.
    + by exists post.
  - exists post. split; [|done]. rewrite append_cons. by rewrite <- Hr.
Qed.

Lemma rstrip_last s r c : rstrip s = r +:+ String c "" → isspace c = false.
Proof.
  revert r. induction s as [|c0 s IH]; intros r; simpl.
  - by destruct r.
  - destruct (rstrip s) as [|c' r'] eqn:Er.
    + destruct (isspace c0) eqn:E; [by destruct r|].
      destruct r as [|c1 r1]; simpl; [by intros [= <-]|]. by destruct r1.
    + destruct r as [|c1 r1]; simpl; [done|]. intros [= _ Hr]. by apply (IH r1).
Qed.

Lemma strip_trims s :
  (∃ pre post, s = pre +:+ strip s +:+ post ∧ blank pre = true ∧ blank post = true) ∧
  (∀ c r, strip s = String c r → isspace c = false) ∧
  (∀ r c, strip s = r +:+ String c "" → isspace c = false).
Proof.
  split; [|split].
  - destruct (lstrip_decompose s) as (pre & Hs & Hpre).
    destruct (rstrip_decompose (lstrip s)) as (post & Hl & Hpost).
    exists pre, post. unfold strip. by rewrite <- Hl, <- Hs.
  - intros c r Hc. pose proof (lstrip_head s) as Hh. unfold strip in Hc.
    destruct (lstrip s) as [|c0 r0]; [done|]. simpl in Hc.
    destruct (rstrip r0); [rewrite Hh in Hc|]; by injection Hc as <- _.
  - intros r c. apply rstrip_last.
Qed.

Lemma truthy_true s : truthy s = true ↔ s ≠ "".
Proof.
  unfold truthy. destruct (String.eqb_spec s ""); simpl; split; try done.
Qed.

Lemma lower_empty s : lower s = "" ↔ s = "".
Proof. destruct s; simpl; split; done. Qed.

Lemma validate_tags_example :
  (list_to_set (validate_tags ["Python"; " python "; "AI"]) : gset string) = {[ "python"; "ai" ]}.
Proof.
  apply set_eq. intros x. rewrite elem_of_list_to_set. vm_compute validate_tags.
  rewrite !elem_of_cons, elem_of_nil, elem_of_union, !elem_of_singleton. tauto.
Qed.

(** C8. Tag validation keeps exactly the lowercased, trimmed forms of the
    tags that are not empty once trimmed, each once: the result has no
    duplicate, every tag in it is non-empty, trimmed and lowercase, and on
    ["Python"; " python "; "AI"] it is, as a set, {"python", "ai"}. *)
Theorem validate_tags_normalises (v : list string) :
  (∀ t, t ∈ validate_tags v ↔ ∃ tag, tag ∈ v ∧ strip tag ≠ "" ∧ t = lower (strip tag)) ∧
  NoDup (validate_tags v) ∧
  (∀ t, t ∈ validate_tags v → t ≠ "" ∧ strip t = t ∧ lower t = t) ∧
  (list_to_set (validate_tags ["Python"; " python "; "AI"]) : gset string) = {[ "python"; "ai" ]}.
Proof.
  assert (Hmem : ∀ t, t ∈ validate_tags v ↔
                      ∃ tag, tag ∈ v ∧ strip tag ≠ "" ∧ t = lower (strip tag)).
  { intros t. unfold validate_tags. rewrite elem_of_elements, elem_of_list_to_set, list_elem_of_fmap.
    split.
    - intros (tag & -> & Hin). apply list_elem_of_filter in Hin as [Ht Hin].
      exists tag. by rewrite <- truthy_true.
    - intros (tag & Hin & Hne & ->). exists tag. split; [done|].
      apply list_elem_of_filter. by rewrite truthy_true. }
  split; [exact Hmem|]. split; [unfold validate_tags; apply NoDup_elements|]. split.
  - intros t (tag & _ & Hne & ->)%Hmem. split; [|split].
    + by rewrite lower_empty.
    + by rewrite strip_lower, strip_idem.
    + apply lower_idem.
  - apply validate_tags_example.
Qed.

(** ** Dates *)

Lemma date_not_in_past_spec (t : Z) (v : datetime) :
  date_not_in_past (utc_now t) v = if bool_decide (utc_instant v < t) then None else Some (as_utc v).
Proof.
  unfold date_not_in_past, as_utc, datetime_lt, utc_instant, utc_now, replace_tzinfo, UTC.
  destruct v as [x [off|]]; simpl.
  - destruct (Z.ltb_spec (x - off) (t - 0)); case_bool_decide; (done || lia).
  - destruct (Z.ltb_spec (x - 0) (t - 0)); case_bool_decide; (done || lia).
Qed.

Lemma create_validate_past_date `{Collaborators} (t : Z) (body : EventCreate.t) :
  utc_instant (EventCreate.date body) < t →
  ∃ fields, EventCreate.validate (utc_now t) body = inl fields ∧ "date" ∈ fields.
Proof.
  intros Hlt. unfold EventCreate.validate.
  rewrite date_not_in_past_spec, bool_decide_eq_true_2 by done.
  destruct (str_field 1 (Some 200) (EventCreate.title body)),
    (str_field 1 None (EventCreate.description body)),
    (str_field 1 (Some 200) (EventCreate.location body)),
    (validate_email (EventCreate.organizer body)),
    (gt_field 0 (EventCreate.capacity body)); simpl;
    eexists; (split; [reflexivity|]); set_solver.
Qed.

(** C7. The date validator takes a naive value as UTC and raises exactly
    when the UTC instant of its input is strictly before the reading of the
    clock; otherwise it returns the value, made aware. A creation request
    whose date is before the clock is refused with a validation error naming
    [date], whatever its offset, and the collection receives no call. *)
Theorem date_not_in_past_compares_in_utc `{Collaborators} (t : Z) (v : datetime) :
  (date_not_in_past (utc_now t) v = None ↔ utc_instant v < t) ∧
  (¬ utc_instant v < t → date_not_in_past (utc_now t) v = Some (as_utc v)) ∧
  date_not_in_past (utc_now t) (replace_tzinfo v None)
    = date_not_in_past (utc_now t) (replace_tzinfo v UTC) ∧
  (∀ body w,
     utc_instant (EventCreate.date body) < clock (ticks w) →
     ∃ fields w',
       router.create_event body w = (inl (RequestValidationError fields), w') ∧
       "date" ∈ fields ∧ events w' = events w ∧ trace w' = trace w).
Proof.
  rewrite !date_not_in_past_spec. split; [|split; [|split]].
  - case_bool_decide; split; (done || lia).
  - intros Hge. by rewrite bool_decide_eq_false_2.
  - done.
  - intros body w Hlt.
    destruct (create_validate_past_date _ body Hlt) as (fields & Hv & Hin).
    exists fields. eexists. unfold router.create_event, mbind, M_bind, datetime_now. simpl.
    rewrite Hv. unfold raise. simpl. done.
Qed.

(** ** The encoder *)

Lemma encodable_spec (v : datetime) :
  encodable v = true ↔ datetime_min ≤ utc_instant v ≤ datetime_max.
Proof. unfold encodable. rewrite andb_true_iff, !Z.leb_le. done. Qed.

Lemma int64_spec (n : Z) :
  int64 n = true ↔ -9223372036854775808 ≤ n < 9223372036854775808.
Proof. unfold int64. rewrite andb_true_iff, !Z.leb_le. lia. Qed.

(** Whether the encoder accepts a datetime shows in its milliseconds. *)
Lemma encodable_millis (v : datetime) :
  encodable v = true ↔ -62135596800000 ≤ millis v ≤ 253402300799999.
Proof.
  rewrite encodable_spec. unfold millis, datetime_min, datetime_max.
  generalize (utc_instant v). intros x.
  pose proof (Z.div_mod x 1000 ltac:(lia)) as Hx.
  pose proof (Z.mod_pos_bound x 1000 ltac:(lia)) as Hr.
  set (q := x `div` 1000) in *. set (r := x `mod` 1000) in *. lia.
Qed.

Lemma encodable_same_millis (v x : datetime) :
  millis v = millis x → encodable v = encodable x.
Proof.
  intros E. apply eq_true_iff_eq. by rewrite !encodable_millis, E.
Qed.

Lemma millis_bson (v : datetime) : millis (bson_datetime v) = millis v.
Proof.
  unfold millis at 1. unfold bson_datetime, utc_instant. simpl.
  rewrite Z.sub_0_r, Z.mul_comm. by rewrite Z.div_mul.
Qed.

Lemma encodable_bson (v : datetime) : encodable (bson_datetime v) = encodable v.
Proof. apply encodable_same_millis, millis_bson. Qed.

Lemma utc_instant_as_utc (v : datetime) : utc_instant (as_utc v) = utc_instant v.
Proof. by destruct v as [x [off|]]. Qed.

Lemma encodable_as_utc (v : datetime) : encodable (as_utc v) = encodable v.
Proof. unfold encodable. by rewrite utc_instant_as_utc. Qed.

(** A reading of the clock, and a filter on identifier and activity, always
    encode. *)
Lemma encodable_set_is_active (b : option bool) (now : option datetime) :
  encodable_set (mk_set (EventUpdate.mk None None None None None None None (Some b)) now) = true.
Proof. reflexivity. Qed.

(** ** The collection *)

Lemma find_one_run (q : query) (w : world) :
  find_one q w =
  if encodable_query q
  then (inr (List.find (matches q) (events w)), logged (FindOne q) w)
  else (inl OverflowError, logged (FindOne q) w).
Proof.
  unfold find_one, encode, mbind, M_bind, mret, M_ret, record, collection, raise.
  by destruct (encodable_query q).
Qed.

Lemma update_one_run (q : query) (u : set_doc) (w : world) :
  update_one q u w =
  if encodable_query q && encodable_set u
  then match update_first q u (events w) with
       | None => (inr (mk_result 0 0), logged (UpdateOne q u) w)
       | Some (l', modified) =>
           (inr (mk_result 1 (if modified then 1 else 0)),
            mk_world l' (ticks w) (minted w) (trace w ++ [UpdateOne q u]))
       end
  else (inl OverflowError, logged (UpdateOne q u) w).
Proof.
  unfold update_one, encode, mbind, M_bind, mret, M_ret, record, collection, put, raise.
  destruct (encodable_query q && encodable_set u); simpl; [|reflexivity].
  destruct (update_first q u (events w)) as [[l' m]|]; reflexivity.
Qed.

Lemma find_None {A : Type} (f : A → bool) (l : list A) :
  List.find f l = None ↔ ∀ x, x ∈ l → f x = false.
Proof.
  induction l as [|a l IH]; simpl.
  - split; [intros _ x Hx; inversion Hx|done].
  - destruct (f a) eqn:E.
    + split; [done|]. intros Hall. rewrite Hall in E; [done|]. apply elem_of_cons. by left.
    + rewrite IH. split.
      * intros Hall x [->|Hx]%elem_of_cons; auto.
      * intros Hall x Hx. apply Hall. apply elem_of_cons. by right.
Qed.

Lemma find_Some_elem {A : Type} (f : A → bool) (l : list A) (x : A) :
  List.find f l = Some x → x ∈ l ∧ f x = true.
Proof. intros [Hin Hf]%find_some. by rewrite list_elem_of_In. Qed.

Lemma find_is_Some {A : Type} (f : A → bool) (l : list A) :
  is_Some (List.find f l) ↔ ∃ x, x ∈ l ∧ f x = true.
Proof.
  split.
  - intros [x Hx]. exists x. by apply find_Some_elem.
  - intros (x & Hin & Hf). destruct (List.find f l) eqn:E; [done|].
    rewrite find_None in E. rewrite E in Hf; done.
Qed.

Lemma matches_id_active (oid : ObjectId) (d : event_doc ObjectId) :
  matches [q_id oid; q_is_active true] d = true ↔ active_with_id oid d.
Proof.
  unfold matches, active_with_id. simpl.
  rewrite andb_true_r, andb_true_iff, !bool_decide_eq_true. done.
Qed.

Lemma matches_id (oid : ObjectId) (d : event_doc ObjectId) :
  matches [q_id oid] d = true ↔ _id d = oid.
Proof. unfold matches. simpl. by rewrite andb_true_r, bool_decide_eq_true. Qed.

Lemma matches_pair (t : option string) (v : option datetime) (d : event_doc ObjectId) :
  matches [q_title t; q_date v; q_is_active true] d = true ↔ active_with_pair t v d.
Proof.
  unfold matches, active_with_pair. simpl.
  rewrite andb_true_r, !andb_true_iff, !bool_decide_eq_true. tauto.
Qed.

Lemma matches_other_pair (t : option string) (v : option datetime) (oid : ObjectId)
    (d : event_doc ObjectId) :
  matches [q_title t; q_date v; q_is_active true; q_id_ne oid] d = true
  ↔ active_with_pair t v d ∧ _id d ≠ oid.
Proof.
  unfold matches, active_with_pair. simpl.
  rewrite andb_true_r, !andb_true_iff, !bool_decide_eq_true. tauto.
Qed.

(** With unique identifiers, a filter that fixes the identifier finds the
    one document that carries it. *)
Lemma find_unique (f : event_doc ObjectId → bool) (oid : ObjectId)
    (l : list (event_doc ObjectId)) (d : event_doc ObjectId) :
  (∀ x, f x = true → _id x = oid) →
  NoDup (_id <$> l) → d ∈ l → f d = true → List.find f l = Some d.
Proof.
  intros Hid. induction l as [|a l IH]; intros Hnd Hin Hf; [inversion Hin|].
  simpl. rewrite fmap_cons in Hnd. apply NoDup_cons in Hnd as [Hnotin Hnd].
  apply elem_of_cons in Hin as [->|Hin]; [by rewrite Hf|].
  destruct (f a) eqn:E; [|by apply IH].
  exfalso. apply Hnotin. rewrite (Hid a E), <- (Hid d Hf). by apply list_elem_of_fmap_2.
Qed.

Lemma apply_set_id (u : set_doc) (d : event_doc ObjectId) : _id (apply_set u d) = _id d.
Proof. reflexivity. Qed.

Lemma rewritten_ids (oid : ObjectId) (u : set_doc) (l : list (event_doc ObjectId)) :
  _id <$> rewritten oid u l = _id <$> l.
Proof.
  unfold rewritten. rewrite <- list_fmap_compose. apply list_fmap_ext.
  intros i x _. simpl. by case_bool_decide.
Qed.

Lemma rewritten_absent (oid : ObjectId) (u : set_doc) (l : list (event_doc ObjectId)) :
  oid ∉ _id <$> l → rewritten oid u l = l.
Proof.
  intros Hnot. unfold rewritten. rewrite <- (list_fmap_id l) at 2.
  apply list_fmap_ext. intros i x Hx. simpl. case_bool_decide as E; [|done].
  exfalso. apply Hnot. rewrite <- E. apply list_elem_of_fmap_2.
  by apply list_elem_of_lookup_2 in Hx.
Qed.

Lemma rewritten_cons (oid : ObjectId) (u : set_doc) (a : event_doc ObjectId)
    (l : list (event_doc ObjectId)) :
  rewritten oid u (a :: l)
  = (if bool_decide (_id a = oid) then apply_set u a else a) :: rewritten oid u l.
Proof. reflexivity. Qed.

Lemma update_first_unique (q : query) (oid : ObjectId) (u : set_doc)
    (l : list (event_doc ObjectId)) (d : event_doc ObjectId) :
  (∀ x, matches q x = true → _id x = oid) →
  NoDup (_id <$> l) → d ∈ l → matches q d = true →
  update_first q u l = Some (rewritten oid u l, bool_decide (apply_set u d ≠ d)).
Proof.
  intros Hid. induction l as [|a l IH]; intros Hnd Hin Hm; [inversion Hin|].
  rewrite fmap_cons in Hnd. apply NoDup_cons in Hnd as [Hnotin Hnd].
  rewrite rewritten_cons. simpl. apply elem_of_cons in Hin as [->|Hin].
  - rewrite Hm. rewrite (bool_decide_eq_true_2 _ (Hid a Hm)).
    rewrite <- (Hid a Hm) in *. by rewrite (rewritten_absent _ _ _ Hnotin).
  - destruct (matches q a) eqn:E.
    + exfalso. apply Hnotin. rewrite (Hid a E), <- (Hid d Hm). by apply list_elem_of_fmap_2.
    + rewrite (IH Hnd Hin Hm). simpl.
      rewrite (bool_decide_eq_false_2 (_id a = oid)); [done|].
      intros Ea. apply Hnotin. rewrite Ea, <- (Hid d Hm). by apply list_elem_of_fmap_2.
Qed.

Lemma update_first_None (q : query) (u : set_doc) (l : list (event_doc ObjectId)) :
  (∀ x, x ∈ l → matches q x = false) → update_first q u l = None.
Proof.
  induction l as [|a l IH]; intros Hall; [done|]. simpl.
  rewrite (Hall a) by (apply elem_of_cons; by left).
  rewrite IH; [done|]. intros x Hx. apply Hall. apply elem_of_cons. by right.
Qed.

Lemma find_rewritten (oid : ObjectId) (u : set_doc) (l : list (event_doc ObjectId))
    (d : event_doc ObjectId) :
  NoDup (_id <$> l) → d ∈ l → _id d = oid →
  List.find (matches [q_id oid]) (rewritten oid u l) = Some (apply_set u d).
Proof.
  intros Hnd Hin Hd. apply (find_unique _ oid).
  - intros x. by rewrite matches_id.
  - by rewrite rewritten_ids.
  - unfold rewritten. apply list_elem_of_fmap. exists d. by rewrite bool_decide_eq_true_2.
  - by rewrite matches_id.
Qed.

Lemma is_valid_true `{Collaborators} (s : string) (oid : ObjectId) :
  ObjectId_parse s = Some oid → is_valid s = true.
Proof. intros E. unfold is_valid. by rewrite E, bool_decide_eq_true_2. Qed.

Lemma is_valid_false `{Collaborators} (s : string) :
  ObjectId_parse s = None → is_valid s = false.
Proof.
  intros E. unfold is_valid. rewrite E. apply bool_decide_eq_false_2. by intros [? ?].
Qed.

(** ** Identifiers *)

Lemma get_event_by_id_run `{Collaborators} (event_id : string) (w : world) :
  get_event_by_id event_id w =
  match ObjectId_parse event_id with
  | None => (inl (HTTPException 400 InvalidIdDetail), w)
  | Some oid =>
      (match List.find (matches [q_id oid; q_is_active true]) (events w) with
       | Some d => inr (event_helper d)
       | None => inl (HTTPException 404 (NotFoundDetail event_id))
       end, logged (FindOne [q_id oid; q_is_active true]) w)
  end.
Proof.
  unfold get_event_by_id. destruct (ObjectId_parse event_id) as [oid|] eqn:E.
  - rewrite (is_valid_true _ _ E). run. rewrite E. simpl.
    by destruct (List.find _ (events w)).
  - by rewrite (is_valid_false _ E).
Qed.

Lemma absent_find `{Collaborators} (event_id : string) (oid : ObjectId) (w : world) :
  ObjectId_parse event_id = Some oid →
  (∀ d, d ∈ events w → is_active d = Some true → ObjectId_parse event_id ≠ Some (_id d)) →
  ∀ x, x ∈ events w → matches [q_id oid; q_is_active true] x = false.
Proof.
  intros E Habs x Hx. apply not_true_is_false. rewrite matches_id_active.
  intros [Hid Hact]. apply (Habs x Hx Hact). by rewrite Hid.
Qed.

(** C5. A string the identifier constructor refuses makes [get_event_by_id],
    [update_event] and [delete_event] raise the invalid-identifier error
    (status 400) without touching the world; a string it accepts, when no
    active event carries that identifier, makes each of them raise the
    not-found error (status 404) and leaves the collection as it was; no
    error is both. *)
Theorem malformed_and_absent_identifiers `{Collaborators}
    (event_id : string) (event_update : EventUpdate.t) (w : world) :
  (is_valid event_id = false →
     let invalid := HTTPException HTTP_400_BAD_REQUEST InvalidIdDetail in
     InvalidIdentifier invalid ∧
     get_event_by_id event_id w = (inl invalid, w) ∧
     update_event event_id event_update w = (inl invalid, w) ∧
     delete_event event_id w = (inl invalid, w)) ∧
  (is_valid event_id = true →
     (∀ d, d ∈ events w → is_active d = Some true →
           ObjectId_parse event_id ≠ Some (_id d)) →
     let absent := HTTPException HTTP_404_NOT_FOUND (NotFoundDetail event_id) in
     NotFound absent ∧
     (get_event_by_id event_id w).1 = inl absent ∧
     events (get_event_by_id event_id w).2 = events w ∧
     (update_event event_id event_update w).1 = inl absent ∧
     events (update_event event_id event_update w).2 = events w ∧
     (delete_event event_id w).1 = inl absent ∧
     events (delete_event event_id w).2 = events w) ∧
  (∀ e, InvalidIdentifier e → ¬ NotFound e).
Proof.
  split; [|split].
  - intros Hv. simpl. unfold get_event_by_id, update_event, delete_event.
    rewrite Hv. simpl. unfold raise. done.
  - intros Hv Habs. simpl. split; [done|].
    unfold is_valid in Hv. apply bool_decide_eq_true in Hv as [oid E].
    pose proof (absent_find _ _ _ E Habs) as Hnone.
    assert (List.find (matches [q_id oid; q_is_active true]) (events w) = None) as Hf
      by by apply find_None.
    rewrite get_event_by_id_run, E, Hf. simpl. split; [done|]. split; [done|].
    unfold update_event, delete_event. rewrite (is_valid_true _ _ E). run.
    rewrite E. simpl. rewrite Hf. simpl.
    rewrite update_one_run. simpl. rewrite (update_first_None _ _ _ Hnone). simpl. done.
  - intros e ->. simpl. tauto.
Qed.

(** C9. On an active event, an update that supplies no field returns the
    stored entity after a single read: the collection, the clock and the
    identifier generator are as before, so [updated_at] is not bumped and
    nothing is written. The request handler does the same. *)
Theorem empty_update_changes_nothing `{Collaborators}
    (event_id : string) (oid : ObjectId) (d : event_doc ObjectId) (w : world) :
  ObjectId_parse event_id = Some oid →
  unique_ids w → d ∈ events w → active_with_id oid d →
  let w' := logged (FindOne [q_id oid; q_is_active true]) w in
  update_event event_id unset_fields w = (inr (Some (event_helper d)), w') ∧
  router.update_event event_id unset_fields w = (inr (Some (event_helper d)), w') ∧
  events w' = events w ∧ ticks w' = ticks w ∧ d ∈ events w' ∧
  Forall (λ c, is_write c = false) (drop (List.length (trace w)) (trace w')).
Proof.
  intros E Hu Hin Hact. simpl.
  assert (update_event event_id unset_fields w
          = (inr (Some (event_helper d)), logged (FindOne [q_id oid; q_is_active true]) w)) as Hrun.
  { unfold update_event. rewrite (is_valid_true _ _ E). run. rewrite E. simpl.
    rewrite (find_unique _ oid _ d); [done| |done|done|by apply matches_id_active].
    intros x Hx. by apply matches_id_active in Hx as [? _]. }
  split; [done|]. split.
  - unfold router.update_event. simpl. unfold mbind, M_bind, mret, M_ret. simpl. done.
  - split; [done|]. split; [done|]. split; [done|].
    rewrite drop_app_length. by repeat constructor.
Qed.

(** ** Listing *)

Lemma date_le_total : Total date_le.
Proof.
  intros a b. unfold date_le.
  destruct (millis <$> date a), (millis <$> date b); try tauto. lia.
Qed.

Lemma events_query_encodable (date_from date_to : option datetime)
    (tags : option (list string)) :
  encodable_query (events_query date_from date_to tags)
  = from_option encodable true date_from && from_option encodable true date_to.
Proof.
  unfold events_query, encodable_query. rewrite !forallb_app.
  assert (forallb encodable_cond
            match tags with
            | Some (t :: ts) => [q_tags_in (lower <$> t :: ts)]
            | _ => []
            end = true) as -> by by destruct tags as [[|? ?]|].
  destruct date_from, date_to; simpl; by rewrite ?andb_true_r.
Qed.

Lemma encodable_bounds (date_from date_to : option datetime) :
  (∀ v, date_from = Some v ∨ date_to = Some v → encodable v = true) →
  from_option encodable true date_from && from_option encodable true date_to = true.
Proof.
  intros Hb. apply andb_true_iff.
  split; [destruct date_from|destruct date_to]; simpl; auto.
Qed.

Lemma get_events_run `{Collaborators} (page limit : Z) (date_from date_to : option datetime)
    (tags : option (list string)) (w : world) :
  let q := events_query date_from date_to tags in
  let skip := (page - 1) * limit in
  let matching := List.filter (matches q) (events w) in
  let window := drop (Z.to_nat skip) (merge_sort date_le matching) in
  get_events page limit date_from date_to tags w =
  if negb (encodable_query q) then (inl OverflowError, logged (CountDocuments q) w)
  else if (skip <? 0) || (limit <? 0) then (inl ValueError, logged (CountDocuments q) w)
  else if negb (int64 skip && int64 limit)
  then (inl OverflowError, logged (Find q skip limit) (logged (CountDocuments q) w))
  else (inr (event_helper <$> take (Z.to_nat limit) window, Z.of_nat (List.length matching)),
        logged (Find q skip limit) (logged (CountDocuments q) w)).
Proof.
  cbv zeta. unfold get_events, find_sorted, count_documents, encode, raise, record, collection.
  unfold mbind, M_bind, mret, M_ret.
  destruct (encodable_query (events_query date_from date_to tags)); simpl; [|done].
  destruct ((page - 1) * limit <? 0); [done|]. destruct (limit <? 0); [done|]. simpl.
  by destruct (int64 ((page - 1) * limit) && int64 limit).
Qed.

Lemma filter_elem {A : Type} (f : A → bool) (l : list A) (x : A) :
  x ∈ List.filter f l ↔ x ∈ l ∧ f x = true.
Proof. by rewrite !list_elem_of_In, filter_In. Qed.

Lemma events_query_active (date_from date_to : option datetime) (tags : option (list string))
    (d : event_doc ObjectId) :
  matches (events_query date_from date_to tags) d = true → is_active d = Some true.
Proof.
  unfold events_query, matches. simpl. intros [Ha _]%andb_true_iff.
  by apply bool_decide_eq_true in Ha.
Qed.

(** What a listing returns comes from active documents of the collection. *)
Lemma get_events_active `{Collaborators} (page limit : Z) (date_from date_to : option datetime)
    (tags : option (list string)) (w : world) (evs : list (event_doc string)) (total : Z) :
  (get_events page limit date_from date_to tags w).1 = inr (evs, total) →
  ∃ docs, evs = event_helper <$> docs ∧
          ∀ x, x ∈ docs → x ∈ events w ∧ is_active x = Some true.
Proof.
  rewrite get_events_run. cbv zeta.
  destruct (negb _); [done|]. destruct (_ || _); [done|].
  destruct (negb _); [done|]. simpl. intros [= <- _].
  eexists. split; [reflexivity|]. intros x Hx.
  assert (x ∈ merge_sort date_le
            (List.filter (matches (events_query date_from date_to tags)) (events w))) as Hs.
  { eapply elem_of_sublist; [|apply sublist_drop].
    eapply elem_of_sublist; [exact Hx|apply sublist_take]. }
  rewrite merge_sort_Permutation in Hs. apply filter_elem in Hs as [Hin Hm].
  split; [done|]. by eapply events_query_active.
Qed.

Lemma tags_in_holds (l : list string) (d : event_doc ObjectId) :
  holds (q_tags_in (lower <$> l)) d = true
  ↔ ∃ t own, t ∈ l ∧ tags d = Some own ∧ lower t ∈ own.
Proof.
  simpl. destruct (tags d) as [own|].
  - rewrite existsb_exists. split.
    + intros (x & Hx & Hd). apply list_elem_of_In, list_elem_of_fmap in Hx as (t & -> & Ht).
      apply bool_decide_eq_true in Hd. by exists t, own.
    + intros (t & own' & Ht & [= <-] & Hin). exists (lower t). split.
      * apply list_elem_of_In. by apply list_elem_of_fmap_2.
      * by apply bool_decide_eq_true.
  - split; [done|]. by intros (? & ? & _ & ? & _).
Qed.

Lemma date_range_holds (gte lte : option datetime) (d : event_doc ObjectId) :
  (is_Some gte ∨ is_Some lte) →
  holds (q_date_range gte lte) d = true
  ↔ (∀ g, gte = Some g → ∃ x, date d = Some x ∧ millis g ≤ millis x) ∧
    (∀ l, lte = Some l → ∃ x, date d = Some x ∧ millis x ≤ millis l).
Proof.
  intros Hsome. simpl. destruct (date d) as [x|].
  - destruct gte as [g|], lte as [l|]; simpl;
      rewrite ?andb_true_r, ?andb_true_iff, ?Z.leb_le.
    + split.
      * intros [? ?]. split; intros ? [= <-]; by exists x.
      * intros [Hg Hl]. destruct (Hg g eq_refl) as (? & [= <-] & ?).
        by destruct (Hl l eq_refl) as (? & [= <-] & ?).
    + split.
      * intros ?. split; [|done]. intros ? [= <-]. by exists x.
      * intros [Hg _]. by destruct (Hg g eq_refl) as (? & [= <-] & ?).
    + split.
      * intros ?. split; [done|]. intros ? [= <-]. by exists x.
      * intros [_ Hl]. by destruct (Hl l eq_refl) as (? & [= <-] & ?).
    + destruct Hsome as [[? ?]|[? ?]]; done.
  - split; [done|]. intros [Hg Hl].
    destruct Hsome as [[g ->]|[l ->]].
    + by destruct (Hg g eq_refl) as (? & ? & _).
    + by destruct (Hl l eq_refl) as (? & ? & _).
Qed.

Lemma events_query_selected (date_from date_to : option datetime)
    (tag_list : option (list string)) (d : event_doc ObjectId) :
  matches (events_query date_from date_to tag_list) d = true
  ↔ selected date_from date_to tag_list d.
Proof.
  unfold selected, events_query, matches.
  rewrite !forallb_app, !andb_true_iff.
  assert (forallb (λ c, holds c d) [q_is_active true] = true ↔ is_active d = Some true) as ->.
  { simpl. by rewrite andb_true_r, bool_decide_eq_true. }
  assert (forallb (λ c, holds c d)
            match date_from, date_to with
            | None, None => []
            | _, _ => [q_date_range date_from date_to]
            end = true
          ↔ (∀ g, date_from = Some g → ∃ x, date d = Some x ∧ millis g ≤ millis x) ∧
            (∀ l, date_to = Some l → ∃ x, date d = Some x ∧ millis x ≤ millis l)) as ->.
  { destruct date_from as [g|] eqn:Eg, date_to as [l|] eqn:El;
      try (cbn [forallb]; rewrite andb_true_r; apply date_range_holds; eauto).
    simpl. split; [|done]. intros _. split; intros ? [=]. }
  assert (forallb (λ c, holds c d)
            match tag_list with
            | Some (t :: ts) => [q_tags_in (lower <$> t :: ts)]
            | _ => []
            end = true
          ↔ (∀ ts, tag_list = Some ts → ts ≠ [] →
                   ∃ t own, t ∈ ts ∧ tags d = Some own ∧ lower t ∈ own)) as ->.
  { destruct tag_list as [[|t ts]|].
    - simpl. split; [|done]. by intros _ ? [= <-].
    - cbn [forallb]. rewrite andb_true_r, tags_in_holds. split.
      + by intros ? ? [= <-] _.
      + intros Hall. by apply Hall.
    - simpl. split; [|done]. by intros _ ? [=]. }
  tauto.
Qed.

(** C6. For [page >= 1] and [1 <= limit <= 100], when the encoder accepts
    the command (the date bounds that are given are within the years 1 to
    9999 in UTC, and the number of skipped documents fits 64 bits), a listing
    succeeds and leaves the collection as it was. It returns the window of at
    most [limit] entities that starts after [(page - 1) * limit] documents of
    the selected documents (active, and passing the date and tag filters) put
    in ascending order of date, and as total the number of selected
    documents, which depends on neither [page] nor [limit]; when no document
    is selected it returns the empty list and 0. *)
Theorem get_events_page `{Collaborators} (page limit : Z)
    (date_from date_to : option datetime) (tag_list : option (list string)) (w : world) :
  1 ≤ page → 1 ≤ limit ≤ 100 →
  (∀ v, date_from = Some v ∨ date_to = Some v → encodable v = true) →
  (page - 1) * limit ≤ 9223372036854775807 →
  let matching := List.filter (matches (events_query date_from date_to tag_list)) (events w) in
  ∃ sorted evs w',
    get_events page limit date_from date_to tag_list w
      = (inr (evs, Z.of_nat (List.length matching)), w') ∧
    (∀ d, d ∈ matching ↔ d ∈ events w ∧ selected date_from date_to tag_list d) ∧
    sorted ≡ₚ matching ∧ Sorted date_le sorted ∧
    evs = event_helper <$> take (Z.to_nat limit) (drop (Z.to_nat ((page - 1) * limit)) sorted) ∧
    Z.of_nat (List.length evs) ≤ limit ∧
    events w' = events w ∧
    (matching = [] → evs = [] ∧ Z.of_nat (List.length matching) = 0) ∧
    (∀ tags, router.get_events page limit date_from date_to tags w
             = get_events page limit date_from date_to (router.tags_list tags) w).
Proof.
  intros Hpage Hlimit Hbounds Hskip matching.
  exists (merge_sort date_le matching). eexists. eexists.
  rewrite get_events_run. cbv zeta. fold matching.
  rewrite events_query_encodable, (encodable_bounds _ _ Hbounds).
  assert (((page - 1) * limit <? 0) = false) as -> by (apply Z.ltb_ge; nia).
  assert ((limit <? 0) = false) as -> by (apply Z.ltb_ge; lia).
  assert (int64 ((page - 1) * limit) = true) as -> by (apply int64_spec; nia).
  assert (int64 limit = true) as -> by (apply int64_spec; lia).
  simpl. split; [reflexivity|]. split; [|split; [|split; [|split; [|split; [|split; [|split]]]]]].
  - intros d. subst matching. by rewrite filter_elem, events_query_selected.
  - apply merge_sort_Permutation.
  - apply Sorted_merge_sort, date_le_total.
  - reflexivity.
  - rewrite length_fmap, length_take. lia.
  - reflexivity.
  - intros Hnil. split; [|by rewrite Hnil].
    assert (merge_sort date_le matching = []) as ->.
    { apply Permutation_nil_r. etrans; [apply merge_sort_Permutation|]. by rewrite Hnil. }
    by rewrite drop_nil, take_nil.
  - intros tags. unfold router.get_events.
    assert ((1 <=? page) = true) as -> by (apply Z.leb_le; lia).
    assert ((1 <=? limit) = true) as -> by (apply Z.leb_le; lia).
    assert ((limit <=? 100) = true) as -> by (apply Z.leb_le; lia).
    done.
Qed.

(** ** Soft delete *)

Lemma unique_id_eq (l : list (event_doc ObjectId)) (x y : event_doc ObjectId) :
  NoDup (_id <$> l) → x ∈ l → y ∈ l → _id x = _id y → x = y.
Proof.
  induction l as [|a l IH]; intros Hnd Hx Hy Hid; [inversion Hx|].
  rewrite fmap_cons in Hnd. apply NoDup_cons in Hnd as [Hnotin Hnd].
  apply elem_of_cons in Hx as [->|Hx]; apply elem_of_cons in Hy as [->|Hy]; auto.
  - exfalso. apply Hnotin. rewrite Hid. by apply list_elem_of_fmap_2.
  - exfalso. apply Hnotin. rewrite <- Hid. by apply list_elem_of_fmap_2.
Qed.

Lemma rewritten_elem (oid : ObjectId) (u : set_doc) (l : list (event_doc ObjectId))
    (x : event_doc ObjectId) :
  x ∈ rewritten oid u l ↔
  ∃ y, y ∈ l ∧ ((_id y = oid ∧ x = apply_set u y) ∨ (_id y ≠ oid ∧ x = y)).
Proof.
  unfold rewritten. rewrite list_elem_of_fmap. split.
  - intros (y & -> & Hy). exists y. split; [done|]. case_bool_decide; auto.
  - intros (y & Hy & [[Hid ->]|[Hid ->]]); exists y; split; try done.
    + by rewrite bool_decide_eq_true_2.
    + by rewrite bool_decide_eq_false_2.
Qed.

Lemma exists_by_find {A : Type} (f : A → bool) (P : A → Prop) (l : list A) :
  (∀ x, f x = true ↔ P x) → (∃ x, x ∈ l ∧ P x) ∨ ¬ (∃ x, x ∈ l ∧ P x).
Proof.
  intros Hf. destruct (List.find f l) as [x|] eqn:E.
  - left. apply find_Some_elem in E as [Hin Hx]. exists x. by rewrite <- Hf.
  - right. intros (x & Hin & Hx). rewrite find_None in E. apply Hf in Hx.
    by rewrite (E x Hin) in Hx.
Qed.

Lemma delete_event_run `{Collaborators} (event_id : string) (oid : ObjectId) (w : world) :
  ObjectId_parse event_id = Some oid →
  let u := mk_set (only_is_active false) (Some (utc_now (clock (ticks w)))) in
  let q := [q_id oid; q_is_active true] in
  delete_event event_id w =
  match update_first q u (events w) with
  | None =>
      (inl (HTTPException 404 (NotFoundDetail event_id)),
       mk_world (events w) (S (ticks w)) (minted w) (trace w ++ [UpdateOne q u]))
  | Some (l', modified) =>
      (if modified then inr true else inl (HTTPException 404 (NotFoundDetail event_id)),
       mk_world l' (S (ticks w)) (minted w) (trace w ++ [UpdateOne q u]))
  end.
Proof.
  intros E. unfold delete_event. rewrite (is_valid_true _ _ E). run. rewrite E. simpl.
  rewrite update_one_run. simpl. unfold only_is_active.
  destruct (update_first _ _ (events w)) as [[l' []]|]; done.
Qed.

(** C2. For a well-formed identifier and a collection with unique
    identifiers, [delete_event] succeeds exactly when an active event carries
    the identifier. It then sets [is_active] to false and [updated_at] to the
    reading of the clock on that document and on no other; afterwards
    [get_event_by_id] raises not-found, no listing returns the event, and the
    document is still in the collection, inactive. When no active event
    carries the identifier, [delete_event] raises not-found and the collection
    is unchanged. *)
Theorem delete_event_soft `{Collaborators} (event_id : string) (oid : ObjectId) (w : world) :
  ObjectId_parse event_id = Some oid → unique_ids w →
  let now := utc_now (clock (ticks w)) in
  let r := delete_event event_id w in
  let absent := HTTPException HTTP_404_NOT_FOUND (NotFoundDetail event_id) in
  ((∃ d, d ∈ events w ∧ active_with_id oid d) ↔ r.1 = inr true) ∧
  ((¬ ∃ d, d ∈ events w ∧ active_with_id oid d) →
     r.1 = inl absent ∧ NotFound absent ∧ events r.2 = events w) ∧
  (∀ d, d ∈ events w → active_with_id oid d →
     let d' := mk_doc oid (title d) (description d) (date d) (location d) (organizer d)
                 (tags d) (capacity d) (Some false) (created_at d) (bson_datetime now) in
     d' ∈ events r.2 ∧
     (∀ x, x ∈ events r.2 → _id x = oid → x = d') ∧
     (∀ x, _id x ≠ oid → x ∈ events r.2 ↔ x ∈ events w) ∧
     List.length (events r.2) = List.length (events w) ∧
     (get_event_by_id event_id r.2).1 = inl absent ∧
     (∀ page limit date_from date_to tag_list evs total,
        (get_events page limit date_from date_to tag_list r.2).1 = inr (evs, total) →
        ∃ docs, evs = event_helper <$> docs ∧
                ∀ x, x ∈ docs → x ∈ events r.2 ∧ _id x ≠ oid)).
Proof.
  intros E Hu now r absent. subst r.
  rewrite (delete_event_run _ _ _ E). cbv zeta. fold now.
  set (u := mk_set (only_is_active false) (Some now)).
  set (q := [q_id oid; q_is_active true]).
  assert (Hq : ∀ x, matches q x = true → _id x = oid).
  { intros x Hx. by apply matches_id_active in Hx as [? _]. }
  destruct (exists_by_find _ _ (events w) (matches_id_active oid)) as [(d & Hin & Hact)|Hno].
  - assert (apply_set u d ≠ d) as Hne.
    { intros Heq. destruct Hact as [_ Ha]. apply (f_equal is_active) in Heq.
      simpl in Heq. by rewrite Ha in Heq. }
    rewrite (update_first_unique q oid u _ d Hq Hu Hin) by by apply matches_id_active.
    rewrite (bool_decide_eq_true_2 _ Hne). simpl.
    split; [split; eauto|]. split; [intros Hno; exfalso; apply Hno; eauto|].
    intros d0 Hin0 Hact0.
    assert (d0 = d) as ->.
    { apply (unique_id_eq (events w)); try done. destruct Hact as [-> _]. by destruct Hact0. }
    clear Hin0 Hact0.
    set (d' := mk_doc oid _ _ _ _ _ _ _ _ _ _).
    assert (apply_set u d = d') as Hd'.
    { destruct Hact as [<- _]. reflexivity. }
    assert (Hown : ∀ x, x ∈ rewritten oid u (events w) → _id x = oid → x = d').
    { intros x (y & Hy & [[Hid ->]|[Hid ->]])%rewritten_elem Hx; [|done].
      rewrite <- Hd'. f_equal. apply (unique_id_eq (events w)); try done.
      destruct Hact as [-> _]. done. }
    split; [|split; [|split; [|split; [|split]]]].
    + apply rewritten_elem. exists d. split; [done|]. left. by destruct Hact.
    + exact Hown.
    + intros x Hx. rewrite rewritten_elem. split.
      * intros (y & Hy & [[Hid ->]|[Hid ->]]); [|done]. by rewrite apply_set_id in Hx.
      * intros Hxin. exists x. auto.
    + unfold rewritten. by rewrite length_fmap.
    + rewrite get_event_by_id_run, E. simpl.
      assert (List.find (matches [q_id oid; q_is_active true]) (rewritten oid u (events w))
              = None) as ->; [|done].
      apply find_None. intros x Hx. apply not_true_is_false. intros Hm.
      apply matches_id_active in Hm as [Hid Ha]. by rewrite (Hown x Hx Hid) in Ha.
    + intros page limit date_from date_to tag_list evs total Hev.
      apply get_events_active in Hev as (docs & -> & Hdocs).
      exists docs. split; [done|]. intros x Hx. destruct (Hdocs x Hx) as [Hxin Ha].
      split; [done|]. simpl in Hxin. intros Hid. by rewrite (Hown x Hxin Hid) in Ha.
  - rewrite (update_first_None q u).
    2:{ intros x Hx. apply not_true_is_false. intros Hm. apply Hno. exists x.
        split; [done|]. by apply matches_id_active. }
    simpl. split; [split; [done|discriminate]|]. split; [done|].
    intros d Hin Hact. exfalso. apply Hno. eauto.
Qed.

(** ** Update *)

Lemma update_event_run `{Collaborators} (event_id : string) (oid : ObjectId)
    (d : event_doc ObjectId) (u : EventUpdate.t) (w : world) :
  ObjectId_parse event_id = Some oid →
  unique_ids w → d ∈ events w → active_with_id oid d →
  let q0 := [q_id oid; q_is_active true] in
  let title' := default (title d) (EventUpdate.title u) in
  let date' := default (date d) (EventUpdate.date u) in
  let qd := [q_title title'; q_date date'; q_is_active true; q_id_ne oid] in
  let checked := bool_decide (is_Some (EventUpdate.title u))
                 || bool_decide (is_Some (EventUpdate.date u)) in
  let pre := trace w ++ FindOne q0 :: (if checked then [FindOne qd] else []) in
  let ud := mk_set u (Some (utc_now (clock (ticks w)))) in
  update_event event_id u w =
  if is_empty (mk_set u None) then (inr (Some (event_helper d)), logged (FindOne q0) w)
  else if checked && negb (from_option encodable true date')
  then (inl OverflowError, mk_world (events w) (ticks w) (minted w) pre)
  else if checked && bool_decide (is_Some (List.find (matches qd) (events w)))
  then (inl (HTTPException 400 (OtherDuplicateDetail title')),
        mk_world (events w) (ticks w) (minted w) pre)
  else if negb (encodable_update u)
  then (inl OverflowError,
        mk_world (events w) (S (ticks w)) (minted w) (pre ++ [UpdateOne [q_id oid] ud]))
  else (inr (Some (event_helper (apply_set ud d))),
        mk_world (rewritten oid ud (events w)) (S (ticks w)) (minted w)
          (pre ++ [UpdateOne [q_id oid] ud; FindOne [q_id oid]])).
Proof.
  intros E Hu Hin Hact. cbv zeta.
  assert (∀ t v, encodable_query [q_title t; q_date v; q_is_active true; q_id_ne oid]
                 = from_option encodable true v) as Hqd.
  { intros t [v|]; unfold encodable_query; simpl; by rewrite ?andb_true_r. }
  assert (∀ now, encodable_query [q_id oid] && encodable_set (mk_set u (Some now))
                 = encodable_update u) as Hud by done.
  assert (List.find (matches [q_id oid; q_is_active true]) (events w) = Some d) as Hf.
  { apply (find_unique _ oid); try done.
    - intros x Hx. by apply matches_id_active in Hx as [? _].
    - by apply matches_id_active. }
  assert (∀ ud, update_first [q_id oid] ud (events w)
                = Some (rewritten oid ud (events w), bool_decide (apply_set ud d ≠ d))) as Hup.
  { intros ud. apply update_first_unique; try done.
    - intros x. by rewrite matches_id.
    - apply matches_id. by destruct Hact. }
  assert (∀ ud, List.find (matches [q_id oid]) (rewritten oid ud (events w))
                = Some (apply_set ud d)) as Hre.
  { intros ud. apply find_rewritten; try done. by destruct Hact. }
  unfold update_event. rewrite (is_valid_true _ _ E). run. rewrite E. simpl. rewrite Hf.
  unfold model_dump_exclude_unset. destruct (is_empty (mk_set u None)); [done|].
  destruct (bool_decide (is_Some (EventUpdate.title u))
            || bool_decide (is_Some (EventUpdate.date u))); simpl.
  - rewrite find_one_run, Hqd.
    destruct (from_option encodable true (default (date d) (EventUpdate.date u))); simpl.
    2:{ unfold logged. simpl. by rewrite <- app_assoc. }
    destruct (List.find
                (matches [q_title (default (title d) (EventUpdate.title u));
                          q_date (default (date d) (EventUpdate.date u));
                          q_is_active true; q_id_ne oid])
                (events w)) as [dup|] eqn:Hdup; simpl.
    + unfold logged. simpl. by rewrite <- app_assoc.
    + rewrite update_one_run. unfold set_now. cbn [set_fields]. rewrite Hud.
      destruct (encodable_update u); simpl.
      2:{ unfold logged. simpl. by rewrite <- !app_assoc. }
      rewrite Hup. simpl.
      rewrite Hre. simpl. unfold logged. simpl. by rewrite <- !app_assoc.
  - rewrite update_one_run. unfold set_now. cbn [set_fields]. rewrite Hud.
    destruct (encodable_update u); simpl; [|done].
    rewrite Hup. simpl.
    rewrite Hre. simpl. unfold logged. simpl. by rewrite <- !app_assoc.
Qed.






(** C10. The update model has an [is_active] field without a rule, and an
    update that supplies only that field, as a boolean, writes it: on an
    active event (identifiers being unique) the stored document gets that
    value and a fresh [updated_at], and is returned. With [false] the
    collection ends exactly as after [delete_event] and [get_event_by_id] no
    longer finds the event; with [true] the value is written all the same. *)
Theorem update_event_writes_is_active `{Collaborators} (event_id : string) (oid : ObjectId)
    (d : event_doc ObjectId) (b : bool) (w : world) :
  ObjectId_parse event_id = Some oid →
  unique_ids w → d ∈ events w → active_with_id oid d →
  let now := utc_now (clock (ticks w)) in
  let r := update_event event_id (only_is_active b) w in
  let d' := mk_doc oid (title d) (description d) (date d) (location d) (organizer d)
              (tags d) (capacity d) (Some b) (created_at d) (bson_datetime now) in
  (∀ t, EventUpdate.validate t (only_is_active b) = inr (only_is_active b)) ∧
  router.update_event event_id (only_is_active b) w = r ∧
  r.1 = inr (Some (event_helper d')) ∧
  d' ∈ events r.2 ∧
  (∀ x, x ∈ events r.2 → _id x = oid → x = d') ∧
  (b = false →
     events r.2 = events (delete_event event_id w).2 ∧
     (get_event_by_id event_id r.2).1
       = inl (HTTPException HTTP_404_NOT_FOUND (NotFoundDetail event_id))).
Proof.
  intros E Hu Hin Hact now r d'. subst r.
  assert (router.update_event event_id (only_is_active b) w
          = update_event event_id (only_is_active b) w) as Hrouter by reflexivity.
  rewrite Hrouter.
  rewrite (update_event_run _ _ _ _ _ E Hu Hin Hact). cbv zeta. fold now.
  assert (is_empty (mk_set (only_is_active b) None) = false) as -> by done.
  assert (bool_decide (is_Some (EventUpdate.title (only_is_active b)))
          || bool_decide (is_Some (EventUpdate.date (only_is_active b))) = false) as Hnc.
  { apply orb_false_iff. split; apply bool_decide_eq_false_2; by intros [? ?]. }
  rewrite Hnc. simpl.
  set (ud := mk_set (only_is_active b) (Some now)).
  assert (apply_set ud d = d') as Hd' by (destruct Hact as [<- _]; reflexivity).
  assert (Hown : ∀ x, x ∈ rewritten oid ud (events w) → _id x = oid → x = d').
  { intros x (y & Hy & [[Hid ->]|[Hid ->]])%rewritten_elem Hx; [|done].
    rewrite <- Hd'. f_equal. apply (unique_id_eq (events w)); try done.
    destruct Hact as [-> _]. done. }
  split; [done|]. split; [done|].
  split; [by rewrite Hd'|]. split.
  { apply rewritten_elem. exists d. split; [done|]. left. by destruct Hact. }
  split; [exact Hown|].
  intros ->. split.
  - rewrite (delete_event_run _ _ _ E). cbv zeta.
    rewrite (update_first_unique _ oid _ _ d); try done.
    + intros x Hx. by apply matches_id_active in Hx as [? _].
    + by apply matches_id_active.
  - rewrite get_event_by_id_run, E. simpl.
    assert (List.find (matches [q_id oid; q_is_active true]) (rewritten oid ud (events w))
            = None) as ->; [|done].
    apply find_None. intros x Hx. apply not_true_is_false. intros Hm.
    apply matches_id_active in Hm as [Hid Ha]. by rewrite (Hown x Hx Hid) in Ha.
Qed.

(** ** Create *)

Lemma find_app_last {A : Type} (f : A → bool) (l : list A) (d : A) :
  (∀ x, x ∈ l → f x = false) → f d = true → List.find f (l ++ [d]) = Some d.
Proof.
  induction l as [|a l IH]; intros Hall Hd; simpl; [by rewrite Hd|].
  rewrite (Hall a) by (apply elem_of_cons; by left).
  apply IH; [|done]. intros x Hx. apply Hall. apply elem_of_cons. by right.
Qed.

Lemma create_event_run `{Collaborators} (event : EventCreate.t) (w : world) :
  let q := [q_title (Some (EventCreate.title event));
            q_date (Some (EventCreate.date event)); q_is_active true] in
  let oid := new_oid (minted w) in
  let created := utc_now (clock (ticks w)) in
  let updated := utc_now (clock (S (ticks w))) in
  let event_dict :=
    mk_doc () (Some (EventCreate.title event)) (Some (EventCreate.description event))
      (Some (EventCreate.date event)) (Some (EventCreate.location event))
      (Some (EventCreate.organizer event)) (Some (EventCreate.tags event))
      (Some (EventCreate.capacity event)) (Some true) created updated in
  let d' := created_doc oid event created updated in
  let after := mk_world (events w) (S (S (ticks w))) (S (minted w))
                 (trace w ++ [FindOne q; InsertOne event_dict]) in
  create_event event w =
  if negb (encodable (EventCreate.date event))
  then (inl OverflowError, logged (FindOne q) w)
  else if bool_decide (is_Some (List.find (matches q) (events w)))
  then (inl (HTTPException HTTP_400_BAD_REQUEST (DuplicateDetail (EventCreate.title event))),
        logged (FindOne q) w)
  else if negb (int64 (EventCreate.capacity event)) then (inl OverflowError, after)
  else if bool_decide (oid ∈ _id <$> events w) then (inl DuplicateKeyError, after)
  else (inr (Some (event_helper d')),
        mk_world (events w ++ [d']) (S (S (ticks w))) (S (minted w))
          (trace w ++ [FindOne q; InsertOne event_dict; FindOne [q_id oid]])).
Proof.
  cbv zeta. unfold create_event. unfold mbind at 1. unfold M_bind at 1.
  rewrite find_one_run.
  assert (encodable_query [q_title (Some (EventCreate.title event));
                           q_date (Some (EventCreate.date event)); q_is_active true]
          = encodable (EventCreate.date event)) as ->.
  { unfold encodable_query. simpl. by rewrite andb_true_r. }
  destruct (encodable (EventCreate.date event)) eqn:Hdate; cbn [negb]; [|done].
  destruct (List.find _ (events w)) as [x|] eqn:Hf.
  { rewrite bool_decide_eq_true_2 by by eexists. done. }
  rewrite bool_decide_eq_false_2 by by intros [? ?].
  unfold insert_one, encode, encodable_doc, record, generate_oid, collection, put, raise,
    datetime_now.
  unfold mbind, M_bind, mret, M_ret. cbn [date capacity from_option fst snd]. simpl.
  rewrite Hdate. cbn [andb].
  destruct (int64 (EventCreate.capacity event)); simpl.
  2:{ unfold logged. simpl. by rewrite <- app_assoc. }
  case_bool_decide as Hfresh; simpl.
  { unfold logged. simpl. by rewrite <- app_assoc. }
  erewrite find_app_last.
  - unfold logged, created_doc. simpl. by rewrite <- !app_assoc.
  - intros x Hx. apply not_true_is_false. rewrite matches_id. intros Hid.
    apply Hfresh. rewrite <- Hid. by apply list_elem_of_fmap_2.
  - by apply matches_id.
Qed.




(** ** Validation of an update *)

Lemma optional_Some {A B : Type} (rule : A → option B) (g : A → B) (f : field A) :
  (∀ v, f = Some (Some v) → rule v = Some (g v)) →
  optional rule f = Some (normal g f).
Proof.
  intros Hr. destruct f as [[v|]|]; simpl; try done. by rewrite (Hr v eq_refl).
Qed.


Lemma normal_id {A : Type} (f : field A) : normal (λ x, x) f = f.
Proof. by destruct f as [[?|]|]. Qed.

Lemma str_field_Some (lo : Z) (hi : option Z) (s : string) :
  is_Some (str_field lo hi s)
  ↔ lo ≤ len s ∧ match hi with Some h => len s ≤ h | None => True end.
Proof.
  unfold str_field. destruct (_ && _) eqn:E.
  - split; [|by eauto]. intros _. apply andb_true_iff in E as [E1 E2].
    apply Z.leb_le in E1. split; [done|]. destruct hi; [by apply Z.leb_le|done].
  - split; [by intros [? ?]|]. intros [H1 H2]. apply andb_false_iff in E as [E|E].
    + apply Z.leb_gt in E. lia.
    + destruct hi; [apply Z.leb_gt in E; lia|done].
Qed.

Lemma str_field_id (lo : Z) (hi : option Z) (s : string) :
  is_Some (str_field lo hi s) → str_field lo hi s = Some s.
Proof. unfold str_field. destruct (_ && _); [done|]. by intros [? ?]. Qed.

Lemma gt_field_Some (n : Z) : is_Some (gt_field 0 n) ↔ 0 < n.
Proof.
  unfold gt_field. destruct (Z.ltb_spec 0 n).
  - split; [done|by eauto].
  - split; [by intros [? ?]|lia].
Qed.

Lemma gt_field_id (n : Z) : is_Some (gt_field 0 n) → gt_field 0 n = Some n.
Proof. unfold gt_field. destruct (0 <? n); [done|]. by intros [? ?]. Qed.


Lemma validate_update_accepts `{Collaborators} (t : Z) (raw : EventUpdate.t) :
  rules_hold t raw → EventUpdate.validate (utc_now t) raw = inr (validated raw).
Proof.
  intros [Ht Hd Hdt Hl Ho Hc]. unfold EventUpdate.validate, validated.
  rewrite (optional_Some _ (λ x, x) (EventUpdate.title raw)).
  2:{ intros s Hs. apply str_field_id, str_field_Some. by apply Ht. }
  rewrite (optional_Some _ (λ x, x) (EventUpdate.description raw)).
  2:{ intros s Hs. apply str_field_id, str_field_Some. split; [by apply Hd|done]. }
  rewrite (optional_Some _ as_utc (EventUpdate.date raw)).
  2:{ intros v Hv. rewrite date_not_in_past_spec, bool_decide_eq_false_2; [done|]. by apply Hdt. }
  rewrite (optional_Some _ (λ x, x) (EventUpdate.location raw)).
  2:{ intros s Hs. apply str_field_id, str_field_Some. by apply Hl. }
  rewrite (optional_Some _ (λ s, default s (validate_email s)) (EventUpdate.organizer raw)).
  2:{ intros s Hs. by destruct (Ho s Hs) as [x ->]. }
  rewrite (optional_Some _ validate_tags (EventUpdate.tags raw)) by done.
  rewrite (optional_Some _ (λ x, x) (EventUpdate.capacity raw)).
  2:{ intros n Hn. apply gt_field_id, gt_field_Some. by apply Hc. }
  by rewrite !normal_id.
Qed.


Lemma router_update_run `{Collaborators} (event_id : string) (raw : EventUpdate.t) (w : world) :
  let w1 := mk_world (events w)
              (match EventUpdate.date raw with
               | Some (Some _) => S (ticks w)
               | _ => ticks w
               end) (minted w) (trace w) in
  router.update_event event_id raw w =
  match EventUpdate.validate (utc_now (clock (ticks w))) raw with
  | inl fields => (inl (RequestValidationError fields), w1)
  | inr event_update => update_event event_id event_update w1
  end.
Proof.
  destruct w as [l n m tr]. unfold router.update_event. simpl.
  destruct raw as [a b [[v|]|] c e f g h]; unfold mbind, M_bind, mret, M_ret; simpl.
  - by destruct (EventUpdate.validate _ _).
  - set (v := EventUpdate.validate (utc_now 0) _).
    change (EventUpdate.validate (utc_now (clock n)) _) with v. by destruct v.
  - set (v := EventUpdate.validate (utc_now 0) _).
    change (EventUpdate.validate (utc_now (clock n)) _) with v. by destruct v.
Qed.


Lemma encodable_validated `{Collaborators} (raw : EventUpdate.t) :
  encodable_update (validated raw) = encodable_update raw.
Proof.
  unfold encodable_update, encodable_set, validated. simpl.
  destruct (EventUpdate.date raw) as [[v|]|]; simpl; by rewrite ?encodable_as_utc.
Qed.

Lemma validated_empty `{Collaborators} (raw : EventUpdate.t) :
  is_empty (mk_set (validated raw) None) = true → raw = unset_fields.
Proof.
  destruct raw as [[?|] [?|] [?|] [?|] [?|] [?|] [?|] [?|]]; done.
Qed.



(** ** What every operation of the collection keeps *)

Lemma update_first_ids (q : query) (u : set_doc) (l l' : list (event_doc ObjectId)) (m : bool) :
  update_first q u l = Some (l', m) → _id <$> l' = _id <$> l.
Proof.
  revert l' m. induction l as [|a l IH]; intros l' m; simpl; [done|].
  destruct (matches q a).
  - by intros [= <- _].
  - destruct (update_first q u l) as [[l0 m0]|]; simpl; [|done].
    intros [= <- _]. rewrite !fmap_cons. by rewrite (IH l0 m0).
Qed.

Lemma update_first_elem (q : query) (u : set_doc) (l l' : list (event_doc ObjectId))
    (m : bool) (x : event_doc ObjectId) :
  update_first q u l = Some (l', m) → x ∈ l' → x ∈ l ∨ ∃ y, y ∈ l ∧ x = apply_set u y.
Proof.
  revert l' m. induction l as [|a l IH]; intros l' m; simpl; [done|].
  destruct (matches q a).
  - intros [= <- _] [->|Hx]%elem_of_cons.
    + right. exists a. split; [apply elem_of_cons; by left|done].
    + left. apply elem_of_cons. by right.
  - destruct (update_first q u l) as [[l0 m0]|]; simpl; [|done].
    intros [= <- _] [->|Hx]%elem_of_cons.
    + left. apply elem_of_cons. by left.
    + destruct (IH l0 m0 eq_refl Hx) as [Hin|(y & Hy & ->)].
      * left. apply elem_of_cons. by right.
      * right. exists y. split; [apply elem_of_cons; by right|done].
Qed.

Lemma update_one_ids (q : query) (u : set_doc) (w : world) :
  _id <$> events (update_one q u w).2 = _id <$> events w.
Proof.
  rewrite update_one_run. destruct (_ && _); [|done].
  destruct (update_first q u (events w)) as [[l' m]|] eqn:E; [|done].
  simpl. by apply update_first_ids in E.
Qed.

Lemma find_one_events (q : query) (w : world) : events (find_one q w).2 = events w.
Proof. rewrite find_one_run. by destruct (encodable_query q). Qed.



Lemma insert_one_events `{Collaborators} (d : event_doc unit) (w : world) :
  events (insert_one d w).2 = events w ∨
  (encodable_doc d = true ∧ (new_oid (minted w) ∉ _id <$> events w) ∧
   events (insert_one d w).2 = events w ++ [stored (with_id (new_oid (minted w)) d)]).
Proof.
  unfold insert_one, encode, mbind, M_bind, mret, M_ret, record, generate_oid, collection,
    put, raise.
  destruct (encodable_doc d); simpl; [|by left].
  case_bool_decide; simpl; [by left|]. by right.
Qed.

Lemma encodable_stored {I J : Type} (i : J) (d : event_doc I) :
  encodable_doc (stored (with_id i d)) = encodable_doc d.
Proof.
  unfold encodable_doc. simpl. destruct (date d); simpl; by rewrite ?encodable_bson.
Qed.

Lemma encodable_apply_set (u : set_doc) (d : event_doc ObjectId) :
  encodable_set u = true → encodable_doc d = true → encodable_doc (apply_set u d) = true.
Proof.
  unfold encodable_set, encodable_doc. simpl.
  intros [Hu1 Hu2]%andb_true_iff [Hd1 Hd2]%andb_true_iff. apply andb_true_iff. split.
  - destruct (EventUpdate.date (set_fields u)) as [[v|]|]; simpl; by rewrite ?encodable_bson.
  - by destruct (EventUpdate.capacity (set_fields u)) as [[n|]|].
Qed.

(** The operations keep the identifiers distinct: the collection refuses an
    identifier it holds, and an update leaves identifiers alone. *)
Lemma insert_one_unique_ids `{Collaborators} (d : event_doc unit) (w : world) :
  unique_ids w → unique_ids (insert_one d w).2.
Proof.
  unfold unique_ids. intros Hu.
  destruct (insert_one_events d w) as [->|(_ & Hfresh & ->)]; [done|].
  rewrite fmap_app. apply NoDup_app. split; [done|]. split.
  - intros x Hx [->|Hnil%elem_of_nil]%elem_of_cons; done.
  - apply NoDup_singleton.
Qed.

(** The operations keep the collection within what the encoder accepts. *)
Lemma insert_one_storable `{Collaborators} (d : event_doc unit) (w : world) :
  storable w → storable (insert_one d w).2.
Proof.
  intros Hs x. destruct (insert_one_events d w) as [->|(Hd & _ & ->)]; [apply Hs|].
  intros [Hx|[->|Hx%elem_of_nil]%elem_of_cons]%elem_of_app; [by apply Hs| |done].
  by rewrite encodable_stored.
Qed.

Lemma update_one_storable (q : query) (u : set_doc) (w : world) :
  storable w → storable (update_one q u w).2.
Proof.
  intros Hs x. rewrite update_one_run.
  destruct (encodable_query q && encodable_set u) eqn:Henc; [|apply Hs].
  apply andb_true_iff in Henc as [_ Hu].
  destruct (update_first q u (events w)) as [[l' m]|] eqn:E; [|apply Hs]. simpl.
  intros Hx. apply (update_first_elem _ _ _ _ _ _ E) in Hx as [Hx|(y & Hy & ->)];
    [by apply Hs|].
  apply encodable_apply_set; [done|]. by apply Hs.
Qed.

(** ** What the service keeps

    A property of the world that every operation of the collection and every
    reading of the clock keeps is kept by every method of the service,
    whatever it returns or raises. *)

Section kept.
Context `{Collaborators} (P : world → Prop).
Hypothesis P_now : ∀ w, P w → P (datetime_now w).2.
Hypothesis P_find_one : ∀ q w, P w → P (find_one q w).2.
Hypothesis P_insert_one : ∀ d w, P w → P (insert_one d w).2.
Hypothesis P_update_one : ∀ q u w, P w → P (update_one q u w).2.
Hypothesis P_count_documents : ∀ q w, P w → P (count_documents q w).2.
Hypothesis P_find_sorted : ∀ q skip limit w, P w → P (find_sorted q skip limit w).2.

Lemma kept_bind {A B : Type} (m : M A) (k : A → M B) (w : world) :
  P (m w).2 → (∀ x w', P w' → P (k x w').2) → P ((m ≫= k) w).2.
Proof.
  intros Hm Hk. unfold mbind, M_bind. destruct (m w) as [[e|x] w']; simpl in *; auto.
Qed.

Lemma create_event_kept (event : EventCreate.t) (w : world) :
  P w → P (create_event event w).2.
Proof.
  intros Hw. unfold create_event.
  apply kept_bind; [by apply P_find_one|]. intros [existing|] w1 H1; [done|].
  apply kept_bind; [by apply P_now|]. intros created w2 H2.
  apply kept_bind; [by apply P_now|]. intros updated w3 H3.
  apply kept_bind; [by apply P_insert_one|]. intros oid w4 H4.
  apply kept_bind; [by apply P_find_one|]. by intros created_event w5 H5.
Qed.



Lemma update_event_kept (event_id : string) (event_update : EventUpdate.t) (w : world) :
  P w → P (update_event event_id event_update w).2.
Proof.
  intros Hw. unfold update_event, ObjectId_new. destruct (is_valid event_id); [|done].
  simpl. destruct (ObjectId_parse event_id) as [oid|]; [|done].
  apply kept_bind; [done|]. intros o w0 H0.
  apply kept_bind; [by apply P_find_one|]. intros [existing|] w1 H1; [|done].
  destruct (is_empty _); [done|].
  apply kept_bind.
  { destruct (_ || _); [|done].
    apply kept_bind; [by apply P_find_one|]. by intros [dup|] w2 H2. }
  intros _ w2 H2.
  apply kept_bind; [by apply P_now|]. intros now w3 H3.
  apply kept_bind; [by apply P_update_one|]. intros res w4 H4.
  apply kept_bind; [by apply P_find_one|]. by intros updated w5 H5.
Qed.

Lemma delete_event_kept (event_id : string) (w : world) :
  P w → P (delete_event event_id w).2.
Proof.
  intros Hw. unfold delete_event, ObjectId_new. destruct (is_valid event_id); [|done].
  simpl. destruct (ObjectId_parse event_id) as [oid|]; [|done].
  apply kept_bind; [done|]. intros o w0 H0.
  apply kept_bind; [by apply P_now|]. intros now w1 H1.
  apply kept_bind; [by apply P_update_one|]. intros res w2 H2.
  by destruct (modified_count res =? 0).
Qed.

End kept.

(** The service keeps the identifiers of the collection distinct. *)
Lemma unique_ids_kept `{Collaborators} (w : world) :
  unique_ids w →
  (∀ event, unique_ids (create_event event w).2) ∧
  (∀ event_id u, unique_ids (update_event event_id u w).2) ∧
  (∀ event_id, unique_ids (delete_event event_id w).2).
Proof.
  intros Hu.
  assert (∀ q w, unique_ids w → unique_ids (find_one q w).2) as Hf.
  { intros q w0. unfold unique_ids. by rewrite find_one_events. }
  assert (∀ q u w, unique_ids w → unique_ids (update_one q u w).2) as Hup.
  { intros q u w0. unfold unique_ids. by rewrite update_one_ids. }
  split; [|split].
  - intros event. apply create_event_kept; try done. apply insert_one_unique_ids.
  - intros event_id u. apply update_event_kept; done.
  - intros event_id. apply delete_event_kept; done.
Qed.

(** The service keeps the collection within what the encoder accepts. *)
Lemma storable_kept `{Collaborators} (w : world) :
  storable w →
  (∀ event, storable (create_event event w).2) ∧
  (∀ event_id u, storable (update_event event_id u w).2) ∧
  (∀ event_id, storable (delete_event event_id w).2).
Proof.
  intros Hs.
  assert (∀ q w, storable w → storable (find_one q w).2) as Hf.
  { intros q w0. unfold storable. by rewrite find_one_events. }
  split; [|split].
  - intros event. apply create_event_kept; try done. apply insert_one_storable.
  - intros event_id u. apply update_event_kept; try done. apply update_one_storable.
  - intros event_id. apply delete_event_kept; try done. apply update_one_storable.
Qed.

Lemma get_events_events `{Collaborators} (page limit : Z) (date_from date_to : option datetime)
    (tag_list : option (list string)) (w : world) :
  events (get_events page limit date_from date_to tag_list w).2 = events w.
Proof.
  rewrite get_events_run. cbv zeta.
  destruct (negb _); [done|]. destruct (_ || _); [done|]. by destruct (negb _).
Qed.

Lemma get_event_by_id_events `{Collaborators} (event_id : string) (w : world) :
  events (get_event_by_id event_id w).2 = events w.
Proof. rewrite get_event_by_id_run. by destruct (ObjectId_parse event_id). Qed.



(** ** Runs on the concrete setting *)

Lemma sample_unique_ids : unique_ids Sample.two_events.
Proof.
  unfold unique_ids. simpl. apply NoDup_cons. split.
  - intros [E|E%elem_of_nil]%elem_of_cons; [discriminate E|exact E].
  - apply NoDup_singleton.
Defined.

Lemma sample_conference_active :
  ∃ d, d ∈ events Sample.two_events ∧ active_with_id Sample.conference_oid d.
Proof.
  eexists. split; [apply elem_of_cons; left; reflexivity|]. split; reflexivity.
Defined.

Lemma sample_storable : storable Sample.two_events.
Proof.
  intros d Hd. simpl in Hd.
  apply elem_of_cons in Hd as [->|Hd]; [reflexivity|].
  apply elem_of_cons in Hd as [->|Hd%elem_of_nil]; [reflexivity|destruct Hd].
Defined.




Lemma delete_event_soft_witness :
  (delete_event Sample.conference_id Sample.two_events).1 = inr true ∧
  (delete_event Sample.absent_id Sample.two_events).1
    = inl (HTTPException 404 (NotFoundDetail Sample.absent_id)).
Proof.
  split.
  - pose proof (delete_event_soft Sample.conference_id Sample.conference_oid Sample.two_events
                  eq_refl sample_unique_ids) as Hdel.
    cbv zeta in Hdel. destruct Hdel as [[Hyes _] _]. apply Hyes, sample_conference_active.
  - pose proof (delete_event_soft Sample.absent_id 24912482966938930280208240895%N
                  Sample.two_events eq_refl sample_unique_ids) as Hdel.
    cbv zeta in Hdel. destruct Hdel as (_ & Hno & _). apply Hno.
    intros (d & Hd & Hid & _). simpl in Hd.
    apply elem_of_cons in Hd as [->|Hd]; [discriminate Hid|].
    apply elem_of_cons in Hd as [->|Hd%elem_of_nil]; [discriminate Hid|exact Hd].
Defined.




Lemma malformed_and_absent_identifiers_witness :
  get_event_by_id "not-an-id" Sample.two_events
    = (inl (HTTPException 400 InvalidIdDetail), Sample.two_events) ∧
  (get_event_by_id Sample.absent_id Sample.two_events).1
    = inl (HTTPException 404 (NotFoundDetail Sample.absent_id)).
Proof.
  split.
  - pose proof (malformed_and_absent_identifiers "not-an-id" unset_fields Sample.two_events)
      as [Hbad _].
    apply (Hbad eq_refl).
  - pose proof (malformed_and_absent_identifiers Sample.absent_id unset_fields Sample.two_events)
      as (_ & Habs & _).
    apply (Habs eq_refl).
    intros d Hd _ E. vm_compute in E. simpl in Hd.
    apply elem_of_cons in Hd as [->|Hd]; [discriminate E|].
    apply elem_of_cons in Hd as [->|Hd%elem_of_nil]; [discriminate E|exact Hd].
Defined.

Lemma get_events_page_witness :
  ∃ evs, (get_events 1 5 None None None Sample.two_events).1 = inr (evs, 2) ∧
         Z.of_nat (List.length evs) ≤ 5.
Proof.
  destruct (get_events_page 1 5 None None None Sample.two_events)
    as (sorted & evs & w' & Hrun & _ & _ & _ & _ & Hlen & _);
    [lia|lia|by intros v [?|?]|lia|].
  exists evs. split; [by rewrite Hrun|exact Hlen].
Defined.

(** A page within the bounds whose skipped documents do not fit 64 bits,
    and a lower date bound in the year 10000 once in UTC: the listing raises
    [OverflowError]. *)
Lemma get_events_page_counterexample :
  1 ≤ 9223372036854775809 ∧ 1 ≤ 1 ≤ 100 ∧
  (get_events 9223372036854775809 1 None None None Sample.two_events).1
    = inl OverflowError ∧
  (get_events 1 10 (Some Sample.year_end) None None Sample.two_events).1
    = inl OverflowError.
Proof. split; [lia|]. split; [lia|]. split; vm_compute; reflexivity. Qed.

Lemma date_not_in_past_compares_in_utc_witness :
  ∃ fields w',
    router.create_event Sample.stale Sample.empty_world
      = (inl (RequestValidationError fields), w') ∧ "date" ∈ fields.
Proof.
  destruct (date_not_in_past_compares_in_utc 0 Sample.past) as (_ & _ & _ & Hcreate).
  destruct (Hcreate Sample.stale Sample.empty_world) as (fields & w' & Hr & Hin & _);
    [reflexivity|].
  by exists fields, w'.
Defined.

Lemma empty_update_changes_nothing_witness :
  events (update_event Sample.conference_id unset_fields Sample.two_events).2
    = events Sample.two_events ∧
  ticks (update_event Sample.conference_id unset_fields Sample.two_events).2
    = ticks Sample.two_events.
Proof.
  edestruct (empty_update_changes_nothing Sample.conference_id Sample.conference_oid)
    as (Hr & _);
    [reflexivity | exact sample_unique_ids | apply elem_of_cons; left; reflexivity
    | split; reflexivity | ].
  rewrite Hr. split; reflexivity.
Defined.

Lemma update_event_writes_is_active_witness :
  (get_event_by_id Sample.conference_id
     (update_event Sample.conference_id (only_is_active false) Sample.two_events).2).1
  = inl (HTTPException 404 (NotFoundDetail Sample.conference_id)).
Proof.
  edestruct (update_event_writes_is_active Sample.conference_id Sample.conference_oid)
    as (_ & _ & _ & _ & _ & Hoff);
    [reflexivity | exact sample_unique_ids | apply elem_of_cons; left; reflexivity
    | split; reflexivity | ].
  apply (Hoff eq_refl).
Defined.

(** * Further properties *)

(** ** Create, then read *)



(** What [create_event] does to the collection: nothing, or one more
    document. *)
Lemma create_event_events `{Collaborators} (event : EventCreate.t) (w : world) :
  events (create_event event w).2 = events w ∨
  ((¬ ∃ d, d ∈ events w ∧
           active_with_pair (Some (EventCreate.title event))
                            (Some (EventCreate.date event)) d) ∧
   encodable_create event = true ∧
   (new_oid (minted w) ∉ _id <$> events w) ∧
   events (create_event event w).2
     = events w ++ [created_doc (new_oid (minted w)) event
                      (utc_now (clock (ticks w))) (utc_now (clock (S (ticks w))))]).
Proof.
  rewrite create_event_run. cbv zeta. unfold encodable_create.
  destruct (encodable (EventCreate.date event)); cbn [negb]; [|by left].
  case_bool_decide as Hdup; [by left|].
  destruct (int64 (EventCreate.capacity event)); cbn [negb]; [|by left].
  case_bool_decide as Hfresh; [by left|]. right.
  split; [|done]. intros (d & Hin & Hd). apply Hdup, find_is_Some.
  exists d. split; [done|]. by apply matches_pair.
Qed.


(** ** Listings *)

Lemma get_events_in_range `{Collaborators} (page limit : Z)
    (date_from date_to : option datetime) (tag_list : option (list string)) (w : world) :
  1 ≤ page → 1 ≤ limit →
  encodable_listing page limit date_from date_to = true →
  let q := events_query date_from date_to tag_list in
  let matching := List.filter (matches q) (events w) in
  (get_events page limit date_from date_to tag_list w).1 =
  inr (event_helper <$> take (Z.to_nat limit)
                          (drop (Z.to_nat ((page - 1) * limit)) (merge_sort date_le matching)),
       Z.of_nat (List.length matching)).
Proof.
  intros Hpage Hlimit Hacc. cbv zeta. rewrite get_events_run. cbv zeta.
  unfold encodable_listing in Hacc.
  apply andb_true_iff in Hacc as [[Hq Hskip]%andb_true_iff Hlim].
  rewrite events_query_encodable, Hq, Hskip, Hlim.
  assert (((page - 1) * limit <? 0) = false) as -> by (apply Z.ltb_ge; nia).
  assert ((limit <? 0) = false) as -> by (apply Z.ltb_ge; lia).
  reflexivity.
Qed.

(** When the encoder refuses the command of a listing, the listing raises
    [OverflowError]. *)
Lemma get_events_refused `{Collaborators} (page limit : Z)
    (date_from date_to : option datetime) (tag_list : option (list string)) (w : world) :
  1 ≤ page → 1 ≤ limit →
  encodable_listing page limit date_from date_to = false →
  (get_events page limit date_from date_to tag_list w).1 = inl OverflowError.
Proof.
  intros Hpage Hlimit Hacc. rewrite get_events_run. cbv zeta.
  unfold encodable_listing in Hacc. rewrite events_query_encodable.
  destruct (from_option encodable true date_from && from_option encodable true date_to);
    cbn [negb andb] in *; [|done].
  assert (((page - 1) * limit <? 0) = false) as -> by (apply Z.ltb_ge; nia).
  assert ((limit <? 0) = false) as -> by (apply Z.ltb_ge; lia).
  cbn [orb]. by rewrite Hacc.
Qed.

(** X2. When the encoder accepts the command of a listing, the number of
    entities the listing returns is the smaller of [limit] and what is left
    of the selected documents after the skipped ones: a page past the end is
    an empty list with the full total, not an error, and the first page
    returns every selected document when [limit] is at least the total. *)
Theorem get_events_page_size `{Collaborators} (page limit : Z)
    (date_from date_to : option datetime) (tag_list : option (list string)) (w : world) :
  1 ≤ page → 1 ≤ limit →
  encodable_listing page limit date_from date_to = true →
  ∃ evs total,
    (get_events page limit date_from date_to tag_list w).1 = inr (evs, total) ∧
    Z.of_nat (List.length evs) = Z.min limit (Z.max 0 (total - (page - 1) * limit)) ∧
    (total ≤ (page - 1) * limit → evs = []) ∧
    (page = 1 → total ≤ limit → Z.of_nat (List.length evs) = total).
Proof.
  intros Hpage Hlimit Hacc.
  rewrite (get_events_in_range _ _ _ _ _ _ Hpage Hlimit Hacc). cbv zeta.
  set (matching := List.filter _ (events w)).
  eexists. eexists. split; [reflexivity|].
  assert (List.length (merge_sort date_le matching) = List.length matching) as Hlen
    by by rewrite merge_sort_Permutation.
  assert (Z.of_nat (List.length
            (event_helper <$> take (Z.to_nat limit)
               (drop (Z.to_nat ((page - 1) * limit)) (merge_sort date_le matching))))
          = Z.min limit (Z.max 0 (Z.of_nat (List.length matching) - (page - 1) * limit)))
    as Hsize.
  { rewrite length_fmap, length_take, length_drop, Hlen. nia. }
  split; [exact Hsize|]. split.
  - intros Hpast. apply nil_length_inv. lia.
  - intros -> Hall. lia.
Qed.



(** ** After a soft delete *)

Lemma delete_event_absent `{Collaborators} (event_id : string) (oid : ObjectId) (w : world) :
  ObjectId_parse event_id = Some oid →
  (∀ x, x ∈ events w → ¬ active_with_id oid x) →
  (delete_event event_id w).1 = inl (HTTPException 404 (NotFoundDetail event_id)) ∧
  events (delete_event event_id w).2 = events w.
Proof.
  intros E Hno. rewrite (delete_event_run _ _ _ E). cbv zeta.
  rewrite update_first_None; [done|].
  intros x Hx. apply not_true_is_false. rewrite matches_id_active. by apply Hno.
Qed.

Lemma update_event_absent `{Collaborators} (event_id : string) (oid : ObjectId)
    (u : EventUpdate.t) (w : world) :
  ObjectId_parse event_id = Some oid →
  (∀ x, x ∈ events w → ¬ active_with_id oid x) →
  (update_event event_id u w).1 = inl (HTTPException 404 (NotFoundDetail event_id)) ∧
  events (update_event event_id u w).2 = events w.
Proof.
  intros E Hno. unfold update_event. rewrite (is_valid_true _ _ E). run. rewrite E. simpl.
  assert (List.find (matches [q_id oid; q_is_active true]) (events w) = None) as ->; [|done].
  apply find_None. intros x Hx. apply not_true_is_false. rewrite matches_id_active.
  by apply Hno.
Qed.

Lemma delete_event_present `{Collaborators} (event_id : string) (oid : ObjectId)
    (d : event_doc ObjectId) (w : world) :
  ObjectId_parse event_id = Some oid →
  unique_ids w → d ∈ events w → active_with_id oid d →
  let flip := mk_set (only_is_active false) (Some (utc_now (clock (ticks w)))) in
  ∃ tr, delete_event event_id w =
        (inr true, mk_world (rewritten oid flip (events w)) (S (ticks w)) (minted w) tr).
Proof.
  intros E Hu Hin Hact flip. eexists. rewrite (delete_event_run _ _ _ E). cbv zeta.
  rewrite (update_first_unique _ oid _ _ d); try done.
  - rewrite bool_decide_eq_true_2; [reflexivity|].
    intros Heq. destruct Hact as [_ Ha]. apply (f_equal is_active) in Heq.
    simpl in Heq. by rewrite Ha in Heq.
  - intros x Hx. by apply matches_id_active in Hx as [? _].
  - by apply matches_id_active.
Qed.

Lemma flipped_inactive (oid : ObjectId) (now : datetime) (l : list (event_doc ObjectId))
    (x : event_doc ObjectId) :
  x ∈ rewritten oid (mk_set (only_is_active false) (Some now)) l →
  ¬ active_with_id oid x.
Proof.
  intros (y & Hy & [[Hid ->]|[Hid ->]])%rewritten_elem [Hx Ha]; [done|].
  by apply Hid.
Qed.

(** X4. A soft delete cannot be undone through the service: after a
    successful [delete_event], a second [delete_event] and every
    [update_event] on the same identifier, also one that supplies
    [is_active = true], raise not-found and leave the collection as it is. *)
Theorem delete_is_final `{Collaborators} (event_id : string) (oid : ObjectId)
    (d : event_doc ObjectId) (w : world) :
  ObjectId_parse event_id = Some oid →
  unique_ids w → d ∈ events w → active_with_id oid d →
  let w1 := (delete_event event_id w).2 in
  let absent := HTTPException HTTP_404_NOT_FOUND (NotFoundDetail event_id) in
  (delete_event event_id w1).1 = inl absent ∧
  events (delete_event event_id w1).2 = events w1 ∧
  ∀ u, (update_event event_id u w1).1 = inl absent ∧
       events (update_event event_id u w1).2 = events w1.
Proof.
  intros E Hu Hin Hact w1 absent.
  destruct (delete_event_present _ _ _ _ E Hu Hin Hact) as (tr & Hrun). cbv zeta in Hrun.
  subst w1. rewrite Hrun. simpl.
  set (w1 := mk_world _ _ _ _).
  assert (∀ x, x ∈ events w1 → ¬ active_with_id oid x) as Hno.
  { intros x Hx. unfold w1 in Hx. simpl in Hx. eapply flipped_inactive, Hx. }
  destruct (delete_event_absent _ _ _ E Hno) as [-> ->]. split; [done|]. split; [done|].
  intros u. by destruct (update_event_absent _ _ u _ E Hno) as [-> ->].
Qed.


(** ** Update, then read *)



(** ** No two active events with the same title and date *)

Lemma update_event_events `{Collaborators} (event_id : string) (u : EventUpdate.t) (w : world) :
  unique_ids w →
  events (update_event event_id u w).2 = events w ∨
  ∃ oid d,
    d ∈ events w ∧ active_with_id oid d ∧
    (is_Some (EventUpdate.title u) ∨ is_Some (EventUpdate.date u) →
     ¬ ∃ x, x ∈ events w ∧ _id x ≠ oid ∧
            active_with_pair (default (title d) (EventUpdate.title u))
                             (default (date d) (EventUpdate.date u)) x) ∧
    events (update_event event_id u w).2
      = rewritten oid (mk_set u (Some (utc_now (clock (ticks w))))) (events w).
Proof.
  intros Hu. destruct (ObjectId_parse event_id) as [oid|] eqn:E.
  2:{ left. unfold update_event. by rewrite (is_valid_false _ E). }
  destruct (exists_by_find _ _ (events w) (matches_id_active oid)) as [(d & Hin & Hact)|Hno].
  2:{ left. apply (update_event_absent _ oid); [done|]. intros x Hx Ha. apply Hno. eauto. }
  rewrite (update_event_run _ _ _ _ _ E Hu Hin Hact). cbv zeta.
  destruct (is_empty _); [by left|].
  set (checked := bool_decide _ || bool_decide _).
  set (found := bool_decide (is_Some (List.find _ (events w)))).
  destruct (checked && negb _); [by left|].
  destruct (checked && found) eqn:Hcf; [by left|].
  destruct (negb (encodable_update u)); [by left|].
  right. exists oid, d. split; [done|]. split; [done|]. split; [|done].
  intros Hsup (x & Hx & Hid & Hpair).
  assert (checked = true) as Hc.
  { subst checked. apply orb_true_iff. rewrite !bool_decide_eq_true. done. }
  rewrite Hc in Hcf. simpl in Hcf. subst found. apply bool_decide_eq_false in Hcf.
  apply Hcf. apply find_is_Some. exists x. split; [done|]. by apply matches_other_pair.
Qed.

Lemma millis_encoded (old : option datetime) (f : field datetime) :
  millis <$> default old (option_map (option_map bson_datetime) f) = millis <$> default old f.
Proof. destruct f as [[v|]|]; simpl; try done. by rewrite millis_bson. Qed.

Lemma unique_pairs_kept `{Collaborators} (w : world) :
  unique_ids w → unique_pairs w →
  (∀ event, unique_pairs (create_event event w).2) ∧
  (∀ event_id u, unique_pairs (update_event event_id u w).2) ∧
  (∀ event_id, unique_pairs (delete_event event_id w).2).
Proof.
  intros Hu Hp. split; [|split].
  - intros event.
    unfold unique_pairs.
    destruct (create_event_events event w) as [->|(Hno & _ & _ & ->)]; [done|].
    set (d' := created_doc _ _ _ _).
    assert (∀ y, y ∈ events w → is_active y = Some true →
                 title d' = title y → millis <$> date d' = millis <$> date y → False) as Hnew.
    { intros y Hy Ha Ht Hd. apply Hno. exists y. split; [done|]. split; [done|].
      split; [done|]. simpl in Hd. rewrite millis_bson in Hd. by rewrite <- Hd. }
    intros x y [Hx|Hx%list_elem_of_singleton]%elem_of_app
               [Hy|Hy%list_elem_of_singleton]%elem_of_app Hax Hay Ht Hd; subst.
    + by apply Hp.
    + exfalso. by apply (Hnew x).
    + exfalso. by apply (Hnew y).
    + done.
  - intros event_id u.
    unfold unique_pairs.
    destruct (update_event_events event_id u w Hu) as [->|(oid & d & Hin & Hact & Hfree & ->)];
      [done|].
    set (ud := mk_set u _).
    assert (∀ y, y ∈ events w → _id y ≠ oid → is_active y = Some true →
                 is_active (apply_set ud d) = Some true →
                 title (apply_set ud d) = title y →
                 millis <$> date (apply_set ud d) = millis <$> date y → False) as Hnew.
    { intros y Hy Hid Ha Ha' Ht Hd. simpl in Ht, Hd. rewrite millis_encoded in Hd.
      destruct (EventUpdate.title u) as [t|] eqn:Et.
      - apply Hfree; [left; by eexists|]. exists y. by repeat split.
      - destruct (EventUpdate.date u) as [v|] eqn:Ev.
        + apply Hfree; [right; by eexists|]. exists y. by repeat split.
        + simpl in Ht, Hd. apply Hid. destruct Hact as [<- Had]. symmetry.
          by apply Hp. }
    intros x y (x0 & Hx0 & Hx)%rewritten_elem (y0 & Hy0 & Hy)%rewritten_elem Hax Hay Ht Hd.
    destruct Hx as [[Hxid ->]|[Hxid ->]], Hy as [[Hyid ->]|[Hyid ->]].
    + simpl. by rewrite Hxid, Hyid.
    + exfalso. assert (x0 = d) as ->.
      { apply (unique_id_eq (events w)); try done. by destruct Hact as [-> _]. }
      by apply (Hnew y0).
    + exfalso. assert (y0 = d) as ->.
      { apply (unique_id_eq (events w)); try done. by destruct Hact as [-> _]. }
      by apply (Hnew x0).
    + by apply Hp.
  - intros event_id. destruct (ObjectId_parse event_id) as [oid|] eqn:E.
    2:{ unfold delete_event. by rewrite (is_valid_false _ E). }
    destruct (exists_by_find _ _ (events w) (matches_id_active oid)) as [(d & Hin & Hact)|Hno].
    2:{ destruct (delete_event_absent event_id oid w E) as [_ Hev].
        - intros x Hx Ha. apply Hno. eauto.
        - unfold unique_pairs. by rewrite Hev. }
    destruct (delete_event_present _ _ _ _ E Hu Hin Hact) as (tr & Hrun). cbv zeta in Hrun.
    rewrite Hrun. unfold unique_pairs. simpl.
    intros x y Hx Hy Hax Hay Ht Hd.
    pose proof Hx as (x0 & Hx0 & Hx')%rewritten_elem.
    pose proof Hy as (y0 & Hy0 & Hy')%rewritten_elem.
    destruct Hx' as [[Hxid ->]|[Hxid ->]]; [done|].
    destruct Hy' as [[Hyid ->]|[Hyid ->]]; [done|].
    by apply Hp.
Qed.

(** X7. When the methods of the service run one after another from an empty
    collection, each call returning before the next one starts, no two
    distinct active events have the same title and the same stored date, and
    no identifier occurs twice. *)
Theorem serial_unique_pairs `{Collaborators} (w : world) :
  serial w → unique_pairs w ∧ unique_ids w.
Proof.
  induction 1 as [n m tr|w event _ [IHp IHu]|w page limit date_from date_to tag_list _ [IHp IHu]
                  |w event_id _ [IHp IHu]|w event_id event_update _ [IHp IHu]
                  |w event_id _ [IHp IHu]].
  - split; [|apply NoDup_nil_2]. intros x y Hx. by apply elem_of_nil in Hx.
  - split; [by apply unique_pairs_kept|by apply unique_ids_kept].
  - unfold unique_pairs, unique_ids. by rewrite get_events_events.
  - unfold unique_pairs, unique_ids. by rewrite get_event_by_id_events.
  - split; [by apply unique_pairs_kept|by apply unique_ids_kept].
  - split; [by apply unique_pairs_kept|by apply unique_ids_kept].
Qed.

(** ** Calls that interleave *)




(** ** Validation of a creation request *)

Lemma loc_elem {A : Type} (name n : string) (r : option A) :
  name ∈ loc n r ↔ name = n ∧ r = None.
Proof.
  destruct r; simpl.
  - split; [by intros ?%elem_of_nil|by intros [_ ?]].
  - rewrite list_elem_of_singleton. split; [done|by intros [? _]].
Qed.

Lemma str_field_None (lo : Z) (hi : Z) (s : string) :
  str_field lo (Some hi) s = None ↔ ¬ lo ≤ len s ≤ hi.
Proof.
  pose proof (str_field_Some lo (Some hi) s) as Hs. simpl in Hs.
  destruct (str_field lo (Some hi) s) eqn:E.
  - split; [done|]. intros Hn. exfalso. apply Hn. apply Hs. by eexists.
  - split; [|done]. intros _ Hb. apply Hs in Hb as [? ?]. done.
Qed.

Lemma str_field_None_open (lo : Z) (s : string) :
  str_field lo None s = None ↔ ¬ lo ≤ len s.
Proof.
  pose proof (str_field_Some lo None s) as Hs. simpl in Hs.
  destruct (str_field lo None s) eqn:E.
  - split; [done|]. intros Hn. exfalso. apply Hn. apply Hs. by eexists.
  - split; [|done]. intros _ Hb. destruct (proj2 Hs (conj Hb I)). done.
Qed.

Lemma gt_field_None (n : Z) : gt_field 0 n = None ↔ ¬ 0 < n.
Proof.
  pose proof (gt_field_Some n) as Hs. destruct (gt_field 0 n) eqn:E.
  - split; [done|]. intros Hn. exfalso. apply Hn. apply Hs. by eexists.
  - split; [|done]. intros _ Hb. apply Hs in Hb as [? ?]. done.
Qed.

Lemma date_rule_None (t : Z) (v : datetime) :
  date_not_in_past (utc_now t) v = None ↔ utc_instant v < t.
Proof. rewrite date_not_in_past_spec. case_bool_decide; split; done. Qed.

Lemma validate_create_cases `{Collaborators} (now : datetime) (raw : EventCreate.t) :
  let v_title := str_field 1 (Some 200) (EventCreate.title raw) in
  let v_description := str_field 1 None (EventCreate.description raw) in
  let v_date := date_not_in_past now (EventCreate.date raw) in
  let v_location := str_field 1 (Some 200) (EventCreate.location raw) in
  let v_organizer := validate_email (EventCreate.organizer raw) in
  let v_capacity := gt_field 0 (EventCreate.capacity raw) in
  match EventCreate.validate now raw with
  | inr event =>
      v_title = Some (EventCreate.title event) ∧
      v_description = Some (EventCreate.description event) ∧
      v_date = Some (EventCreate.date event) ∧
      v_location = Some (EventCreate.location event) ∧
      v_organizer = Some (EventCreate.organizer event) ∧
      v_capacity = Some (EventCreate.capacity event) ∧
      EventCreate.tags event = validate_tags (EventCreate.tags raw)
  | inl fields =>
      fields ≠ [] ∧
      fields = loc "title" v_title ++ loc "description" v_description ++
               loc "date" v_date ++ loc "location" v_location ++
               loc "organizer" v_organizer ++ loc "capacity" v_capacity
  end.
Proof.
  cbv zeta. unfold EventCreate.validate.
  destruct (str_field 1 (Some 200) (EventCreate.title raw)),
    (str_field 1 None (EventCreate.description raw)),
    (date_not_in_past now (EventCreate.date raw)),
    (str_field 1 (Some 200) (EventCreate.location raw)),
    (validate_email (EventCreate.organizer raw)),
    (gt_field 0 (EventCreate.capacity raw)); simpl; done.
Qed.

Lemma validate_create_sound `{Collaborators} (t : Z) (raw : EventCreate.t) :
  match EventCreate.validate (utc_now t) raw with
  | inr event => (∀ name, ¬ broken t raw name) ∧ event = validated_create raw
  | inl fields =>
      fields ≠ [] ∧ (∀ name, name ∈ fields ↔ broken t raw name) ∧ "tags" ∉ fields
  end.
Proof.
pose proof (validate_create_cases (utc_now t) raw) as Hc. cbv zeta in Hc.
  destruct (EventCreate.validate (utc_now t) raw) as [fields|event].
  - destruct Hc as [Hne ->]. split; [done|].
    assert (∀ name,
      name ∈ loc "title" (str_field 1 (Some 200) (EventCreate.title raw)) ++
             loc "description" (str_field 1 None (EventCreate.description raw)) ++
             loc "date" (date_not_in_past (utc_now t) (EventCreate.date raw)) ++
             loc "location" (str_field 1 (Some 200) (EventCreate.location raw)) ++
             loc "organizer" (validate_email (EventCreate.organizer raw)) ++
             loc "capacity" (gt_field 0 (EventCreate.capacity raw))
      ↔ broken t raw name) as Hiff.
    { intros name. unfold broken.
      rewrite !elem_of_app, !loc_elem, !str_field_None, str_field_None_open,
        date_rule_None, gt_field_None. reflexivity. }
    split; [exact Hiff|].
    rewrite Hiff. unfold broken. intros [[? _]|[[? _]|[[? _]|[[? _]|[[? _]|[? _]]]]]]; done.
  - destruct Hc as (Ht & Hd & Hdt & Hl & Ho & Hcap & Htags). split.
    + intros name. unfold broken.
      rewrite <- !str_field_None, <- str_field_None_open, <- date_rule_None, <- gt_field_None.
      rewrite Ht, Hd, Hdt, Hl, Ho, Hcap.
      intros [[_ ?]|[[_ ?]|[[_ ?]|[[_ ?]|[[_ ?]|[_ ?]]]]]]; done.
    + destruct event as [a b c d e f g]. simpl in *. unfold validated_create.
      rewrite str_field_id in Ht by by rewrite Ht.
      rewrite str_field_id in Hd by by rewrite Hd.
      rewrite str_field_id in Hl by by rewrite Hl.
      rewrite gt_field_id in Hcap by by rewrite Hcap.
      rewrite date_not_in_past_spec in Hdt. case_bool_decide; [done|].
      rewrite Ho. simpl. congruence.
Qed.

Lemma router_create_run `{Collaborators} (raw : EventCreate.t) (w : world) :
  router.create_event raw w =
  match EventCreate.validate (utc_now (clock (ticks w))) raw with
  | inl fields => (inl (RequestValidationError fields), ticked w)
  | inr event => create_event event (ticked w)
  end.
Proof.
  unfold router.create_event, mbind, M_bind, datetime_now. simpl.
  by destruct (EventCreate.validate _ raw).
Qed.

(** X8. A creation request passes validation exactly when it breaks no rule
    of [EventCreate]: title and location of 1 to 200 characters, a non-empty
    description, a date not before the clock, an address the validator
    accepts, a capacity above 0. When it passes, the service receives the
    fields with the date made aware, the address normalised and the tags
    cleaned; when it fails, the error names exactly the fields whose rule is
    broken, never [tags], and the collection receives no call. *)
Theorem create_request_validation `{Collaborators} (raw : EventCreate.t) (w : world) :
  let t := clock (ticks w) in
  let r := router.create_event raw w in
  match EventCreate.validate (utc_now t) raw with
  | inr event =>
      (∀ name, ¬ broken t raw name) ∧ event = validated_create raw ∧
      r = create_event (validated_create raw) (ticked w)
  | inl fields =>
      fields ≠ [] ∧ (∀ name, name ∈ fields ↔ broken t raw name) ∧ ("tags" ∉ fields) ∧
      r = (inl (RequestValidationError fields), ticked w)
  end.
Proof.
  cbv zeta. rewrite router_create_run.
  pose proof (validate_create_sound (clock (ticks w)) raw) as Hs.
  destruct (EventCreate.validate _ raw) as [fields|event].
  - destruct Hs as (? & ? & ?). done.
  - destruct Hs as [? ->]. done.
Qed.

(** ** Tags, ranges and bounds *)

Lemma validate_tags_elem (v : list string) (t : string) :
  t ∈ validate_tags v ↔ ∃ tag, tag ∈ v ∧ strip tag ≠ "" ∧ t = lower (strip tag).
Proof.
  unfold validate_tags. rewrite elem_of_elements, elem_of_list_to_set, list_elem_of_fmap.
  split.
  - intros (tag & -> & Hin). apply list_elem_of_filter in Hin as [Ht Hin].
    exists tag. by rewrite <- truthy_true.
  - intros (tag & Hin & Hne & ->). exists tag. split; [done|].
    apply list_elem_of_filter. by rewrite truthy_true.
Qed.

(** X9. Cleaning tags twice changes nothing but possibly the order; the
    result is never longer than the input, depends only on which tags the
    input holds, not on their order or repetition, and is empty exactly when
    every tag of the input is blank. *)
Theorem validate_tags_idempotent (v : list string) :
  validate_tags (validate_tags v) ≡ₚ validate_tags v ∧
  (List.length (validate_tags v) ≤ List.length v)%nat ∧
  (∀ v', (∀ tag, tag ∈ v ↔ tag ∈ v') → validate_tags v ≡ₚ validate_tags v') ∧
  (validate_tags v = [] ↔ ∀ tag, tag ∈ v → strip tag = "").
Proof.
  split; [|split; [|split]].
  - apply NoDup_Permutation; [unfold validate_tags; apply NoDup_elements..|].
    intros t. rewrite (validate_tags_elem (validate_tags v)). split.
    + intros (tag & (raw & Hraw & Hne & ->)%validate_tags_elem & Hne' & ->).
      rewrite strip_lower, strip_idem, lower_idem.
      apply validate_tags_elem. by exists raw.
    + intros Ht. exists t. split; [done|].
      apply validate_tags_elem in Ht as (raw & Hraw & Hne & ->).
      rewrite strip_lower, strip_idem, lower_idem. split; [|done]. by rewrite lower_empty.
  - assert (validate_tags v ⊆+ (λ tag, lower (strip tag)) <$> v) as Hsub.
    { apply NoDup_submseteq; [unfold validate_tags; apply NoDup_elements|].
      intros t (raw & Hraw & _ & ->)%validate_tags_elem.
      apply list_elem_of_fmap. by exists raw. }
    apply submseteq_length in Hsub. by rewrite length_fmap in Hsub.
  - intros v' Hsame.
    apply NoDup_Permutation; [unfold validate_tags; apply NoDup_elements..|].
    intros t. rewrite !validate_tags_elem. split; intros (tag & Hin & ?); exists tag;
      (split; [by apply Hsame|done]).
  - split.
    + intros Hnil tag Hin. destruct (decide (strip tag = "")) as [|Hne]; [done|].
      exfalso. assert (lower (strip tag) ∈ validate_tags v) as Hel.
      { apply validate_tags_elem. by exists tag. }
      rewrite Hnil in Hel. by apply elem_of_nil in Hel.
    + intros Hblank. destruct (validate_tags v) as [|t l] eqn:E; [done|].
      assert (t ∈ validate_tags v) as Hel by (rewrite E; apply elem_of_cons; by left).
      apply validate_tags_elem in Hel as (tag & Hin & Hne & _). by rewrite Hblank in Hne.
Qed.

Lemma filter_none {A : Type} (f : A → bool) (l : list A) :
  (∀ x, x ∈ l → f x = false) → List.filter f l = [].
Proof.
  induction l as [|a l IH]; intros Hall; [done|]. cbn [List.filter].
  rewrite (Hall a) by (apply elem_of_cons; by left).
  apply IH. intros x Hx. apply Hall. apply elem_of_cons. by right.
Qed.

(** X10. A listing whose lower date bound is later than its upper bound, in
    stored milliseconds, selects nothing: when the encoder accepts its
    command, it returns the empty list and total 0 rather than an error. *)
Theorem get_events_inverted_range `{Collaborators} (page limit : Z) (g l : datetime)
    (tag_list : option (list string)) (w : world) :
  1 ≤ page → 1 ≤ limit →
  encodable_listing page limit (Some g) (Some l) = true →
  millis l < millis g →
  (get_events page limit (Some g) (Some l) tag_list w).1 = inr ([], 0).
Proof.
  intros Hpage Hlimit Hacc Hinv.
  rewrite (get_events_in_range _ _ _ _ _ _ Hpage Hlimit Hacc). cbv zeta.
  assert (List.filter (matches (events_query (Some g) (Some l) tag_list)) (events w) = [])
    as ->.
  { apply filter_none. intros d _.
    apply not_true_is_false. rewrite events_query_selected.
    intros (_ & Hg & Hl & _).
    destruct (Hg g eq_refl) as (x & Hx & Hgx). destruct (Hl l eq_refl) as (y & Hy & Hyl).
    rewrite Hx in Hy. injection Hy as <-. lia. }
  assert (merge_sort date_le [] = []) as -> by reflexivity.
  by rewrite drop_nil, take_nil.
Qed.

Lemma get_events_errors `{Collaborators} (page limit : Z)
    (date_from date_to : option datetime) (tag_list : option (list string))
    (w : world) (e : error) :
  (get_events page limit date_from date_to tag_list w).1 = inl e → ¬ ValidationError e.
Proof.
  rewrite get_events_run. cbv zeta.
  destruct (negb _); [intros [= <-]; simpl; tauto|].
  destruct (_ || _); [intros [= <-]; simpl; tauto|].
  destruct (negb _); [intros [= <-]; simpl; tauto|]. done.
Qed.

(** X11. The listing handler refuses the request with a validation error,
    before the collection receives any call, exactly when [page] is below 1
    or [limit] is outside 1..100, and the error names each of the two that
    is out of bounds. Otherwise it hands the request to the service, which
    raises no validation error and, when the encoder accepts the command,
    returns a page and a total. *)
Theorem router_get_events_bounds `{Collaborators} (page limit : Z)
    (date_from date_to : option datetime) (tags : option string) (w : world) :
  let r := router.get_events page limit date_from date_to tags w in
  (page < 1 ∨ limit < 1 ∨ 100 < limit →
     ∃ fields, r = (inl (RequestValidationError fields), w) ∧
               ("page" ∈ fields ↔ page < 1) ∧
               ("limit" ∈ fields ↔ limit < 1 ∨ 100 < limit)) ∧
  (1 ≤ page → 1 ≤ limit ≤ 100 →
     r = get_events page limit date_from date_to (router.tags_list tags) w ∧
     (encodable_listing page limit date_from date_to = true →
        ∃ evs total, r.1 = inr (evs, total)))
  ∧ ((∃ e, r.1 = inl e ∧ ValidationError e) ↔ page < 1 ∨ limit < 1 ∨ 100 < limit).
Proof.
  cbv zeta. unfold router.get_events.
  destruct (Z.leb_spec 1 page) as [Hp|Hp];
    destruct (Z.leb_spec 1 limit) as [Hl|Hl];
    destruct (Z.leb_spec limit 100) as [Hh|Hh]; cbn [andb loc app].
  1:{ split; [lia|]. split.
      - intros _ _. split; [done|]. intros Hacc.
        rewrite (get_events_in_range _ _ _ _ _ _ Hp Hl Hacc). by eexists _, _.
      - split; [|lia]. intros (e & He & Hv). by apply get_events_errors in He. }
  all: split;
    [intros _; eexists; split; [reflexivity|]; split; split;
       first [ intros ?; lia
             | intros Hin; exfalso;
               repeat (apply elem_of_cons in Hin as [Hin|Hin]; [discriminate Hin|]);
               by apply elem_of_nil in Hin
             | intros _;
               repeat first [ apply elem_of_cons; left; reflexivity
                            | apply elem_of_cons; right ] ]
    |split; [lia|split; [lia|intros _; eexists; split; [reflexivity|done]]]].
Qed.
(** ** Responses *)

Lemma response_complete `{Collaborators} (d : event_doc ObjectId) :
  is_Some (EventResponse.validate (event_helper d)) ↔ complete d.
Proof.
  destruct d as [i a b c dd e f g h ca ua]. unfold complete, event_helper, with_id. simpl.
  destruct a, b, c, dd, e, f, g, h; simpl; split;
    first [ by intros [? ?]
          | intros _; repeat split; by eexists
          | by intros ([? ?] & [? ?] & [? ?] & [? ?] & [? ?] & [? ?] & [? ?] & [? ?])
          | intros _; by eexists ].
Qed.




Lemma get_event_response `{Collaborators} (event_id : string) (w : world) :
  (endpoint.get_event event_id w).1 =
  match ObjectId_parse event_id with
  | None => mk_response 400 (DetailContent InvalidIdDetail)
  | Some oid =>
      match List.find (matches [q_id oid; q_is_active true]) (events w) with
      | None => mk_response 404 (DetailContent (NotFoundDetail event_id))
      | Some d =>
          match EventResponse.validate (event_helper d) with
          | Some e => mk_response 200 (EventContent e)
          | None => mk_response 500 InternalErrorContent
          end
      end
  end.
Proof.
  unfold endpoint.get_event, serve. rewrite get_event_by_id_run.
  destruct (ObjectId_parse event_id) as [oid|]; [|done].
  destruct (List.find _ (events w)) as [d|]; [|done]. simpl.
  by destruct (EventResponse.validate (event_helper d)).
Qed.

(** X13. The read endpoint answers 400 for a string the identifier
    constructor refuses, 404 when no active event carries the identifier,
    200 with the event when the active event has no null field, and 500 when
    it has one. The delete endpoint answers 400, 404 and, on success, 204
    with no content. *)
Theorem read_and_delete_endpoint_status `{Collaborators} (event_id : string) (w : world) :
  (is_valid event_id = false →
     status (endpoint.get_event event_id w).1 = 400 ∧
     status (endpoint.delete_event event_id w).1 = 400) ∧
  (∀ oid, ObjectId_parse event_id = Some oid →
     ((∀ x, x ∈ events w → ¬ active_with_id oid x) →
        status (endpoint.get_event event_id w).1 = 404 ∧
        status (endpoint.delete_event event_id w).1 = 404) ∧
     (∀ d, unique_ids w → d ∈ events w → active_with_id oid d →
        (complete d →
           ∃ e, (endpoint.get_event event_id w).1 = mk_response 200 (EventContent e) ∧
                EventResponse.validate (event_helper d) = Some e) ∧
        (¬ complete d → status (endpoint.get_event event_id w).1 = 500) ∧
        (endpoint.delete_event event_id w).1 = mk_response 204 NoContent)).
Proof.
  split.
  - intros Hv. unfold endpoint.get_event, endpoint.delete_event, serve.
    unfold get_event_by_id, delete_event. by rewrite Hv.
  - intros oid E. split.
    + intros Hno. rewrite get_event_response, E.
      assert (List.find (matches [q_id oid; q_is_active true]) (events w) = None) as ->.
      { apply find_None. intros x Hx. apply not_true_is_false. rewrite matches_id_active.
        by apply Hno. }
      split; [done|]. unfold endpoint.delete_event, serve.
      destruct (delete_event_absent _ _ _ E Hno) as [Hr _].
      destruct (delete_event event_id w) as [res w']. simpl in Hr. by rewrite Hr.
    + intros d Hu Hin Hact. rewrite get_event_response, E.
      rewrite (find_unique _ oid _ d); try done.
      2:{ intros x Hx. by apply matches_id_active in Hx as [? _]. }
      2:{ by apply matches_id_active. }
      split; [|split].
      * intros [e He]%response_complete. rewrite He. by exists e.
      * intros Hnc. destruct (EventResponse.validate (event_helper d)) as [e|] eqn:He; [|done].
        exfalso. apply Hnc, response_complete. by eexists.
      * unfold endpoint.delete_event, serve.
        destruct (delete_event_present _ _ _ _ E Hu Hin Hact) as (tr & ->). done.
Qed.





(** X19. An update whose date or capacity the encoder refuses passes
    validation when it keeps the rules, and is not written: on an active
    event of a collection whose documents went through the encoder, and when
    no other active event has the resulting title and date, the update
    endpoint answers 500 and the collection is as it was. *)
Theorem update_endpoint_overflow `{Collaborators} (event_id : string) (oid : ObjectId)
    (d : event_doc ObjectId) (raw : EventUpdate.t) (w : world) :
  ObjectId_parse event_id = Some oid →
  unique_ids w → storable w → d ∈ events w → active_with_id oid d →
  rules_hold (clock (ticks w)) raw →
  encodable_update raw = false →
  (is_Some (EventUpdate.title raw) ∨ is_Some (EventUpdate.date raw) →
   ¬ ∃ x, x ∈ events w ∧ _id x ≠ oid ∧
          active_with_pair (default (title d) (EventUpdate.title raw))
                           (default (date d) (normal as_utc (EventUpdate.date raw))) x) →
  let r := endpoint.update_event event_id raw w in
  (∃ u, EventUpdate.validate (utc_now (clock (ticks w))) raw = inr u) ∧
  status r.1 = 500 ∧ events r.2 = events w.
Proof.
  intros E Hu Hs Hin Hact Hok Hacc Hfree r. subst r.
  split; [eexists; by apply validate_update_accepts|].
  unfold endpoint.update_event, serve. rewrite router_update_run. cbv zeta.
  rewrite (validate_update_accepts _ _ Hok).
  set (w1 := mk_world (events w) _ (minted w) (trace w)).
  rewrite (update_event_run event_id oid d (validated raw) w1 E Hu Hin Hact). cbv zeta.
  rewrite encodable_validated, Hacc.
  destruct (is_empty (mk_set (validated raw) None)) eqn:Hem.
  { apply validated_empty in Hem as ->. discriminate Hacc. }
  destruct (_ && negb _); [done|].
  set (checked := bool_decide (is_Some (EventUpdate.title (validated raw)))
                  || bool_decide (is_Some (EventUpdate.date (validated raw)))).
  set (found := bool_decide (is_Some (List.find _ (events w1)))).
  assert (checked && found = false) as ->; [|done].
  apply andb_false_iff. destruct checked eqn:Hc; [right|by left].
  apply bool_decide_eq_false_2. rewrite find_is_Some.
  intros (x & Hx & [Hpair Hid]%matches_other_pair).
  apply Hfree; [|by exists x].
  subst checked. apply orb_true_iff in Hc as [Hc|Hc]; apply bool_decide_eq_true in Hc.
  - by left.
  - right. simpl in Hc. by destruct (EventUpdate.date raw).
Qed.
(** ** Documents without a null field *)

Lemma delete_event_events `{Collaborators} (event_id : string) (w : world) :
  unique_ids w →
  events (delete_event event_id w).2 = events w ∨
  ∃ oid, events (delete_event event_id w).2
         = rewritten oid (mk_set (only_is_active false) (Some (utc_now (clock (ticks w)))))
             (events w).
Proof.
  intros Hu. destruct (ObjectId_parse event_id) as [oid|] eqn:E.
  2:{ left. unfold delete_event. by rewrite (is_valid_false _ E). }
  destruct (exists_by_find _ _ (events w) (matches_id_active oid)) as [(d & Hin & Hact)|Hno].
  - right. exists oid. destruct (delete_event_present _ _ _ _ E Hu Hin Hact) as (tr & ->). done.
  - left. apply (delete_event_absent _ oid); [done|]. intros x Hx Ha. apply Hno. eauto.
Qed.

Lemma apply_set_complete (u : set_doc) (d : event_doc ObjectId) :
  ¬ supplies_null (set_fields u) → complete d → complete (apply_set u d).
Proof.
  destruct u as [[a b c dd e f g h] ua]. unfold supplies_null, complete. simpl.
  intros Hn (Ha & Hb & Hc & Hd & He & Hf & Hg & Hh).
  assert (∀ A (x : field A) (y : option A),
            x ≠ Some None → is_Some y → is_Some (default y x)) as Hkeep.
  { intros A [[?|]|] y Hx Hy; simpl; [by eexists|done|done]. }
  assert (c ≠ Some None →
          is_Some (default (date d) (option_map (option_map bson_datetime) c))) as Hdate.
  { destruct c as [[?|]|]; simpl; intros Hx; [by eexists|done|done]. }
  split; [apply Hkeep; [tauto|done]|].
  split; [apply Hkeep; [tauto|done]|].
  split; [apply Hdate; tauto|].
  split; [apply Hkeep; [tauto|done]|].
  split; [apply Hkeep; [tauto|done]|].
  split; [apply Hkeep; [tauto|done]|].
  split; [apply Hkeep; [tauto|done]|].
  apply Hkeep; [tauto|done].
Qed.

Lemma rewritten_complete (oid : ObjectId) (u : set_doc) (l : list (event_doc ObjectId)) :
  ¬ supplies_null (set_fields u) → Forall complete l → Forall complete (rewritten oid u l).
Proof.
  intros Hn Hall. unfold rewritten. apply Forall_fmap. eapply Forall_impl; [exact Hall|].
  intros x Hx. simpl. case_bool_decide; [by apply apply_set_complete|done].
Qed.

(** X15. Documents stay free of null fields as long as no update supplies a
    null: when every document of the collection has all its fields,
    [create_event], [delete_event] and every [update_event] that supplies no
    null leave it so, and the read endpoint never answers 500. *)
Theorem complete_kept `{Collaborators} (w : world) :
  unique_ids w → Forall complete (events w) →
  (∀ event, Forall complete (events (create_event event w).2)) ∧
  (∀ event_id u, ¬ supplies_null u → Forall complete (events (update_event event_id u w).2)) ∧
  (∀ event_id, Forall complete (events (delete_event event_id w).2)) ∧
  (∀ event_id, status (endpoint.get_event event_id w).1 ≠ 500).
Proof.
  intros Hu Hall. split; [|split; [|split]].
  - intros event. destruct (create_event_events event w) as [->|(_ & _ & _ & ->)]; [done|].
    apply Forall_app. split; [done|]. apply Forall_singleton.
    unfold complete, created_doc. simpl. repeat split; by eexists.
  - intros event_id u Hn.
    destruct (update_event_events event_id u w Hu) as [->|(oid & d & _ & _ & _ & ->)];
      [done|]. by apply rewritten_complete.
  - intros event_id. destruct (delete_event_events event_id w Hu) as [->|[oid ->]]; [done|].
    apply rewritten_complete; [|done]. unfold supplies_null. simpl.
    intros [?|[?|[?|[?|[?|[?|[?|?]]]]]]]; done.
  - intros event_id. rewrite get_event_response.
    destruct (ObjectId_parse event_id) as [oid|]; [|done].
    destruct (List.find _ (events w)) as [d|] eqn:Hf; [|done].
    apply find_Some_elem in Hf as [Hin _].
    rewrite Forall_forall in Hall. apply Hall, response_complete in Hin as [e ->]. done.
Qed.

(** X16. The listing endpoint, [page] defaulting to 1 and [limit] to 10,
    answers 422 when they are out of bounds. Otherwise it answers 500 when
    the encoder refuses the command; and when the encoder accepts it, 200
    with the total, the page, the limit and one entry per document of the
    window when every document of the window has all its fields, and 500 as
    soon as one document of the window has a null field. *)
Theorem list_endpoint_status `{Collaborators} (page limit : option Z)
    (date_from date_to : option datetime) (tags : option string) (w : world) :
  let p := default 1 page in
  let l := default 10 limit in
  let r := endpoint.get_events page limit date_from date_to tags w in
  (p < 1 ∨ l < 1 ∨ 100 < l → status r.1 = 422 ∧ r.2 = w) ∧
  (1 ≤ p → 1 ≤ l ≤ 100 →
     (encodable_listing p l date_from date_to = false → status r.1 = 500) ∧
     (encodable_listing p l date_from date_to = true →
      ∃ docs total,
        (get_events p l date_from date_to (router.tags_list tags) w).1
          = inr (event_helper <$> docs, total) ∧
        (Forall complete docs →
           ∃ listing, r.1 = mk_response 200 (ListContent listing) ∧
                      EventListResponse.total listing = total ∧
                      EventListResponse.page listing = p ∧
                      EventListResponse.limit listing = l ∧
                      List.length (EventListResponse.events listing) = List.length docs) ∧
        (¬ Forall complete docs → status r.1 = 500))).
Proof.
  intros p l r. subst r. unfold endpoint.get_events, serve. fold p l.
  unfold router.get_events. split.
  - intros Hout.
    destruct (Z.leb_spec 1 p); destruct (Z.leb_spec 1 l); destruct (Z.leb_spec l 100);
      cbn [andb]; first [lia | done].
  - intros Hp Hl.
    assert ((1 <=? p) = true) as -> by (apply Z.leb_le; lia).
    assert ((1 <=? l) = true) as -> by (apply Z.leb_le; lia).
    assert ((l <=? 100) = true) as -> by (apply Z.leb_le; lia).
    cbn [andb]. split.
    + intros Hacc.
      pose proof (get_events_refused p l date_from date_to (router.tags_list tags) w Hp
                    (proj1 Hl) Hacc) as Hrun.
      destruct (get_events p l date_from date_to (router.tags_list tags) w) as [res w'].
      simpl in Hrun. by subst res.
    + intros Hacc.
      pose proof (get_events_in_range p l date_from date_to (router.tags_list tags) w Hp
                    (proj1 Hl) Hacc) as Hrun. cbv zeta in Hrun.
      destruct (get_events p l date_from date_to (router.tags_list tags) w) as [res w'].
      simpl in Hrun. subst res. eexists. eexists. split; [reflexivity|].
      cbv beta iota. cbn [fst snd]. unfold EventListResponse.validate.
      set (docs := take _ _). split.
      * intros Hall.
        assert (is_Some (mapM EventResponse.validate (event_helper <$> docs))) as [k Hk].
        { apply mapM_is_Some. apply Forall_fmap. eapply Forall_impl; [exact Hall|].
          intros x Hx. by apply response_complete. }
        rewrite Hk. simpl. eexists. split; [reflexivity|]. simpl.
        split; [done|]. split; [done|]. split; [done|].
        apply length_mapM in Hk. by rewrite length_fmap in Hk.
      * intros Hnot.
        destruct (mapM EventResponse.validate (event_helper <$> docs)) as [k|] eqn:Hk; [|done].
        exfalso. apply Hnot.
        assert (is_Some (mapM EventResponse.validate (event_helper <$> docs))) as Hs
          by by eexists.
        rewrite mapM_is_Some, Forall_fmap in Hs. eapply Forall_impl; [exact Hs|].
        intros x Hx. by apply response_complete.
Qed.
(** ** The tag filter of the listing *)

Lemma split_comma_not_nil (s : string) : split_comma s ≠ [].
Proof.
  induction s as [|c r IH]; simpl; [done|].
  destruct (Ascii.eqb c ","); [done|]. by destruct (split_comma r).
Qed.

(** X17. The tag filter of the listing agrees with the way tags are stored:
    for a document whose tags went through [validate_tags], an empty [tags]
    parameter filters nothing, and a non-empty one selects the document
    exactly when it is active and one comma-separated piece equals one of
    the submitted non-blank tags up to surrounding white space and case. *)
Theorem tags_filter_round_trip (s : string) (submitted : list string)
    (d : event_doc ObjectId) :
  tags d = Some (validate_tags submitted) →
  let q := events_query None None (router.tags_list (Some s)) in
  (s = "" → matches q d = true ↔ is_active d = Some true) ∧
  (s ≠ "" →
   matches q d = true ↔
   is_active d = Some true ∧
   ∃ piece tag, piece ∈ split_comma s ∧ tag ∈ submitted ∧ strip tag ≠ "" ∧
                lower (strip piece) = lower (strip tag)).
Proof.
  intros Htags q. subst q. split.
  - intros ->. rewrite events_query_selected. unfold selected. simpl. split; [tauto|].
    intros Ha. repeat split; try done.
  - intros Hs. rewrite events_query_selected. unfold selected, router.tags_list.
    apply truthy_true in Hs. rewrite Hs. split.
    + intros (Ha & _ & _ & Ht). split; [done|].
      destruct (Ht _ eq_refl) as (t & own & Hin & Hown & Hlow).
      { intros Hnil. apply fmap_nil_inv in Hnil. by apply split_comma_not_nil in Hnil. }
      apply list_elem_of_fmap in Hin as (piece & -> & Hpiece).
      rewrite Htags in Hown. injection Hown as <-.
      apply validate_tags_elem in Hlow as (tag & Htag & Hne & Heq).
      by exists piece, tag.
    + intros (Ha & piece & tag & Hpiece & Htag & Hne & Heq).
      split; [done|]. split; [done|]. split; [done|].
      intros ts [= <-] _. exists (strip piece), (validate_tags submitted).
      split; [apply list_elem_of_fmap; by exists piece|]. split; [done|].
      apply validate_tags_elem. by exists tag.
Qed.

(** ** Further runs on the concrete setting *)

Lemma sample_complete : Forall complete (events Sample.two_events).
Proof.
  assert (∀ d, is_Some (EventResponse.validate (event_helper d)) → complete d) as Hc
    by (intros d; apply response_complete).
  apply Forall_cons_2; [apply Hc; by eexists|].
  apply Forall_cons_2; [apply Hc; by eexists|]. apply Forall_nil_2.
Defined.




Lemma get_events_page_size_witness :
  ∃ evs total,
    (get_events 2 5 None None None Sample.two_events).1 = inr (evs, total) ∧
    Z.of_nat (List.length evs) = Z.min 5 (Z.max 0 (total - (2 - 1) * 5)).
Proof.
  destruct (get_events_page_size 2 5 None None None Sample.two_events)
    as (evs & total & Hrun & Hlen & _); [lia|lia|reflexivity|].
  exists evs, total. split; [exact Hrun|exact Hlen].
Defined.


Lemma delete_is_final_witness :
  (delete_event Sample.conference_id (delete_event Sample.conference_id Sample.two_events).2).1
    = inl (HTTPException 404 (NotFoundDetail Sample.conference_id)) ∧
  (update_event Sample.conference_id (only_is_active true)
     (delete_event Sample.conference_id Sample.two_events).2).1
    = inl (HTTPException 404 (NotFoundDetail Sample.conference_id)).
Proof.
  pose proof (λ d, delete_is_final Sample.conference_id Sample.conference_oid d
                     Sample.two_events) as Hall.
  edestruct Hall as (Hd & _ & Hu);
    [reflexivity | exact sample_unique_ids | apply elem_of_cons; left; reflexivity
    | split; reflexivity | ].
  split; [exact Hd|]. apply Hu.
Defined.



Lemma serial_unique_pairs_witness :
  unique_pairs (create_event Sample.meetup (create_event Sample.conference Sample.empty_world).2).2.
Proof.
  apply serial_unique_pairs.
  apply serial_create, serial_create, (serial_empty 0 0 []).
Defined.


Lemma create_request_validation_witness :
  ∃ fields, router.create_event Sample.stale Sample.empty_world
              = (inl (RequestValidationError fields), ticked Sample.empty_world) ∧
            "date" ∈ fields.
Proof.
  pose proof (create_request_validation Sample.stale Sample.empty_world) as Hv.
  cbv zeta in Hv.
  destruct (EventCreate.validate _ Sample.stale) as [fields|event] eqn:E.
  - destruct Hv as (_ & Hiff & _ & Hr). exists fields. split; [exact Hr|].
    apply Hiff. right. right. left. split; reflexivity.
  - discriminate E.
Defined.

Lemma get_events_inverted_range_witness :
  (get_events 1 10 (Some Sample.june) (Some Sample.past) None Sample.two_events).1
    = inr ([], 0).
Proof.
  apply get_events_inverted_range; [lia|lia|reflexivity|reflexivity].
Defined.

Lemma router_get_events_bounds_witness :
  (∃ fields, router.get_events 0 10 None None None Sample.two_events
               = (inl (RequestValidationError fields), Sample.two_events)) ∧
  (∃ evs total, (router.get_events 1 100 None None None Sample.two_events).1
                  = inr (evs, total)).
Proof.
  split.
  - pose proof (router_get_events_bounds 0 10 None None None Sample.two_events) as Hb.
    cbv zeta in Hb. destruct Hb as (Hbad & _).
    destruct Hbad as (fields & Hr & _); [left; lia|]. by exists fields.
  - pose proof (router_get_events_bounds 1 100 None None None Sample.two_events) as Hb.
    cbv zeta in Hb. destruct Hb as (_ & Hgood & _).
    destruct Hgood as [_ Hok]; [lia|lia|]. apply Hok. reflexivity.
Defined.


Lemma read_and_delete_endpoint_status_witness :
  status (endpoint.get_event "not-an-id" Sample.two_events).1 = 400 ∧
  (endpoint.delete_event Sample.conference_id Sample.two_events).1
    = mk_response 204 NoContent.
Proof.
  split.
  - pose proof (read_and_delete_endpoint_status "not-an-id" Sample.two_events) as (Hbad & _).
    apply (Hbad eq_refl).
  - pose proof (read_and_delete_endpoint_status Sample.conference_id Sample.two_events)
      as (_ & Hok).
    edestruct (Hok Sample.conference_oid eq_refl) as (_ & Hfound).
    edestruct Hfound as (_ & _ & Hdel);
      [exact sample_unique_ids | apply elem_of_cons; left; reflexivity | split; reflexivity | ].
    exact Hdel.
Defined.


Lemma complete_kept_witness :
  Forall complete (events (create_event Sample.stale Sample.two_events).2) ∧
  Forall complete (events (delete_event Sample.conference_id Sample.two_events).2).
Proof.
  destruct (complete_kept Sample.two_events sample_unique_ids sample_complete)
    as (Hc & _ & Hd & _).
  split; [apply Hc|apply Hd].
Defined.

Lemma list_endpoint_status_witness :
  status (endpoint.get_events (Some 0) None None None None Sample.two_events).1 = 422 ∧
  ∃ docs total,
    (get_events 1 10 None None (router.tags_list (Some "python"))
       Sample.two_events).1 = inr (event_helper <$> docs, total).
Proof.
  split.
  - pose proof (list_endpoint_status (Some 0) None None None None Sample.two_events) as Hl.
    cbv zeta in Hl. destruct Hl as (Hbad & _). apply Hbad. left. simpl. lia.
  - pose proof (list_endpoint_status None None None None (Some "python") Sample.two_events)
      as Hl.
    cbv zeta in Hl. destruct Hl as (_ & Hgood).
    destruct Hgood as [_ Hok]; [simpl; lia|simpl; lia|].
    destruct (Hok eq_refl) as (docs & total & Hrun & _).
    exists docs, total. exact Hrun.
Defined.

Lemma tags_filter_round_trip_witness :
  ∃ d, tags d = Some (validate_tags ["test"; "Python "]) ∧
       matches (events_query None None (router.tags_list (Some " PYTHON ,web"))) d = true.
Proof.
  set (d := mk_doc Sample.conference_oid (Some "Test Conference 2025") None None None None
              (Some (validate_tags ["test"; "Python "])) None (Some true)
              Sample.june Sample.june).
  exists d. split; [reflexivity|].
  pose proof (tags_filter_round_trip " PYTHON ,web" ["test"; "Python "] d eq_refl) as Hf.
  cbv zeta in Hf. destruct Hf as (_ & Hf). apply Hf; [discriminate|].
  split; [reflexivity|]. exists " PYTHON ", "Python ".
  split; [apply elem_of_cons; left; reflexivity|].
  split; [apply elem_of_cons; right; apply elem_of_cons; left; reflexivity|].
  split; [discriminate|reflexivity].
Defined.

Lemma update_endpoint_overflow_witness :
  status (endpoint.update_event Sample.conference_id (only_capacity 9223372036854775808)
            Sample.two_events).1 = 500 ∧
  events (endpoint.update_event Sample.conference_id (only_capacity 9223372036854775808)
            Sample.two_events).2 = events Sample.two_events.
Proof.
  pose proof (λ d, update_endpoint_overflow Sample.conference_id Sample.conference_oid d
                     (only_capacity 9223372036854775808) Sample.two_events) as Hall.
  edestruct Hall as (_ & Hs & Hev);
    [reflexivity | exact sample_unique_ids | exact sample_storable
    | apply elem_of_cons; left; reflexivity
    | split; reflexivity | | reflexivity | by intros [[? [=]]|[? [=]]] | ].
  - split; intros x Hx; try discriminate Hx. injection Hx as <-. lia.
  - split; [exact Hs|exact Hev].
Defined.

